(** * kml_area: the geometry core of the KML polygon area tool

    A shallow embedding of [_unwrap_lons], [spherical_polygon_area_sq_m] and
    [centroid_latlon] from [kml_area.py], and the properties the
    specification states about them.

    Numbers.  Python's [float] is idealised as a real number ([R]): [+], [-],
    [*], [/] are the exact operations, [>], [<] and [!=] are decided on the
    reals, and the functions of Python's [math] module are their real
    counterparts.  Rounding, signed zeros, infinities and NaN are outside
    this model; the module [F64] has [_unwrap_lons] and
    [spherical_polygon_area_sq_m] once more over binary64 numbers, to state
    what holds of them with rounding, infinities and NaN, and what does
    not.

    Failure.  Indexing a Python list out of range raises [IndexError]; list
    accesses are therefore modelled in the [result] monad, and a [for] loop
    over [range] is a monadic fold over the list of its indices.

    Parsing layer.  [parse_kml_polygons] and [summarize_kml_folder] are
    embedded over a [runtime] record that stands for what the code takes
    from outside: [float], [round] and [str.lower], the [os.path] functions,
    the Placemarks that the XML library finds in a file, and the listing of
    [os.walk].  A [str] is the list of its code points.  Strings that
    [float] reads as an infinity or a NaN are outside the model, as are
    [write_csv] and the command line and web front ends, which only do
    input and output. *)

From Stdlib Require Import Reals Lra List ZArith Lia Bool.
From Stdlib Require Import Permutation.
From Stdlib Require Floats.
Import ListNotations.

Open Scope R_scope.

(** ** Python values and control flow *)

Module Py.

(** The outcome of evaluating an expression: a value, or [IndexError]. *)
Inductive result (A : Type) : Type :=
| Ok (a : A)
| IndexError.
Arguments Ok {A} a.
Arguments IndexError {A}.

Definition bind {A B : Type} (m : result A) (k : A -> result B) : result B :=
  match m with
  | Ok a => k a
  | IndexError => IndexError
  end.

(** [len(l)]. *)
Definition len {A : Type} (l : list A) : Z := Z.of_nat (length l).

(** [l[i]]: a negative index counts from the end; an index that is still
    out of range raises. *)
Definition getitem {A : Type} (l : list A) (i : Z) : result A :=
  let j := if (i <? 0)%Z then (i + len l)%Z else i in
  if ((0 <=? j)%Z && (j <? len l)%Z)%bool then
    match nth_error l (Z.to_nat j) with
    | Some a => Ok a
    | None => IndexError
    end
  else IndexError.

(** [range(lo, hi)]. *)
Definition range (lo hi : Z) : list Z :=
  map (fun k => (lo + Z.of_nat k)%Z) (seq 0 (Z.to_nat (hi - lo))).

(** [for i in idx: s = body(s, i)]. *)
Fixpoint for_loop {I S : Type} (idx : list I) (body : S -> I -> result S)
  (s : S) : result S :=
  match idx with
  | [] => Ok s
  | i :: idx' => bind (body s i) (for_loop idx' body)
  end.

(** [[f(u) for u in l]]. *)
Fixpoint comprehension {A B : Type} (f : A -> result B) (l : list A)
  : result (list B) :=
  match l with
  | [] => Ok []
  | u :: l' =>
      bind (f u) (fun v => bind (comprehension f l') (fun vs => Ok (v :: vs)))
  end.

End Py.

Import Py.

Notation "x <- m ;; k" := (bind m (fun x => k))
  (at level 61, m at next level, right associativity).
Notation "' p <- m ;; k" := (bind m (fun x => match x with p => k end))
  (at level 61, p pattern, m at next level, right associativity).

(** ** Python's [math] module, over the reals *)

Module math.

Definition sin : R -> R := Rtrigo_def.sin.
Definition cos : R -> R := Rtrigo_def.cos.

(** [math.radians(x)] and [math.degrees(x)]. *)
Definition radians (x : R) : R := x * (PI / 180).
Definition degrees (x : R) : R := x * (180 / PI).

(** [math.hypot(x, y)]. *)
Definition hypot (x y : R) : R := sqrt (x * x + y * y).

(** [math.atan2(y, x)]: the angle of the point [(x, y)], in (-pi, pi]. *)
Definition atan2 (y x : R) : R :=
  if Rlt_dec 0 x then atan (y / x)
  else if Rlt_dec x 0 then
    (if Rle_dec 0 y then atan (y / x) + PI else atan (y / x) - PI)
  else if Rlt_dec 0 y then PI / 2
  else if Rlt_dec y 0 then - (PI / 2)
  else 0.

End math.

(** ** The source functions *)

(** Earth radius (meters), the IUGG mean Earth radius. *)
Definition EARTH_RADIUS : R := 6371008.8.

(** One iteration of the loop of [_unwrap_lons]. *)
Definition unwrap_body (lons : list R) (unwrapped : list R) (i : Z)
  : result (list R) :=
  li <- getitem lons i ;;
  lp <- getitem lons (i - 1) ;;
  let d := li - lp in
  if Rgt_dec d 180 then
    u <- getitem unwrapped (-1) ;; Ok (unwrapped ++ [u + (d - 360)])
  else if Rlt_dec d (-180) then
    u <- getitem unwrapped (-1) ;; Ok (unwrapped ++ [u + (d + 360)])
  else
    u <- getitem unwrapped (-1) ;; Ok (unwrapped ++ [u + d]).

Definition _unwrap_lons (lons : list R) : result (list R) :=
  l0 <- getitem lons 0 ;;
  unwrapped <- for_loop (range 1 (len lons)) (unwrap_body lons) [l0] ;;
  base <- getitem lons 0 ;;
  comprehension
    (fun u => u0 <- getitem unwrapped 0 ;; Ok (base + (u - u0))) unwrapped.

(** The test [lats_deg[0] != lats_deg[-1] or lons_deg[0] != lons_deg[-1]];
    [or] evaluates its right operand only when the left one is false. *)
Definition not_closed (lats_deg lons_deg : list R) : result bool :=
  la0 <- getitem lats_deg 0 ;;
  laN <- getitem lats_deg (-1) ;;
  if Req_dec_T la0 laN then
    lo0 <- getitem lons_deg 0 ;;
    loN <- getitem lons_deg (-1) ;;
    Ok (if Req_dec_T lo0 loN then false else true)
  else Ok true.

(** One iteration of the summation loop of [spherical_polygon_area_sq_m]. *)
Definition area_body (lats lons : list R) (total : R) (i : Z) : result R :=
  lon1 <- getitem lons i ;;
  lon2 <- getitem lons (i + 1) ;;
  lat1 <- getitem lats i ;;
  lat2 <- getitem lats (i + 1) ;;
  Ok (total + (lon2 - lon1) * (math.sin lat1 + math.sin lat2)).

Definition spherical_polygon_area_sq_m (lats_deg lons_deg : list R)
  : result R :=
  if (len lats_deg <? 3)%Z then Ok 0
  else
    open <- not_closed lats_deg lons_deg ;;
    '(lats_deg, lons_deg) <-
      (if open : bool then
         la0 <- getitem lats_deg 0 ;;
         lo0 <- getitem lons_deg 0 ;;
         Ok (lats_deg ++ [la0], lons_deg ++ [lo0])
       else Ok (lats_deg, lons_deg)) ;;
    lons_deg <- _unwrap_lons lons_deg ;;
    let lats := map math.radians lats_deg in
    let lons := map math.radians lons_deg in
    total <- for_loop (range 0 (len lats - 1)) (area_body lats lons) 0 ;;
    let area_on_unit_sphere := 0.5 * Rabs total in
    let area_sq_m := area_on_unit_sphere * EARTH_RADIUS ^ 2 in
    Ok area_sq_m.

(** The body of the accumulation loop of [centroid_latlon], over the pairs
    that [zip] yields. *)
Definition centroid_body (acc : R * R * R) (p : R * R) : R * R * R :=
  let '(x, y, z) := acc in
  let '(lat_deg, lon_deg) := p in
  let lat := math.radians lat_deg in
  let lon := math.radians lon_deg in
  (x + math.cos lat * math.cos lon,
   y + math.cos lat * math.sin lon,
   z + math.sin lat).

Definition centroid_latlon (lats_deg lons_deg : list R) : R * R :=
  match lats_deg with
  | [] => (0, 0)
  | _ :: _ =>
      let '(x, y, z) :=
        fold_left centroid_body (combine lats_deg lons_deg) (0, 0, 0) in
      let n := IZR (len lats_deg) in
      let x := x / n in
      let y := y / n in
      let z := z / n in
      let hyp := math.hypot x y in
      let lat := math.degrees (math.atan2 z hyp) in
      let lon := math.degrees (math.atan2 y x) in
      (lat, lon)
  end.

(** ** The arithmetic of the source in binary64

    The same functions over Rocq's primitive floats, which are IEEE 754
    binary64 numbers with round-to-nearest-even, as Python's [float] is.
    Here [+], [-], [*] round, an infinity and NaN are values, and
    [math.sin] raises [ValueError] on an infinity.  The value of
    [math.sin] on a finite argument is a parameter. *)

Module F64.
Import Floats.
#[local] Set Warnings "-inexact-float".
#[local] Open Scope float_scope.

Inductive exn : Type :=
| IndexError
| ValueError.

(** The outcome of evaluating an expression: a value, or an exception. *)
Inductive outcome (A : Type) : Type :=
| Return (a : A)
| Raise (e : exn).
Arguments Return {A} a.
Arguments Raise {A} e.

Definition bind {A B : Type} (m : outcome A) (k : A -> outcome B) : outcome B :=
  match m with
  | Return a => k a
  | Raise e => Raise e
  end.

Definition lift {A : Type} (r : Py.result A) : outcome A :=
  match r with
  | Py.Ok a => Return a
  | Py.IndexError => Raise IndexError
  end.

(** [l[i]], as [Py.getitem]. *)
Definition getitem {A : Type} (l : list A) (i : Z) : outcome A :=
  lift (Py.getitem l i).

Fixpoint for_loop {I S : Type} (idx : list I) (body : S -> I -> outcome S)
  (s : S) : outcome S :=
  match idx with
  | [] => Return s
  | i :: idx' => bind (body s i) (for_loop idx' body)
  end.

Fixpoint comprehension {A B : Type} (f : A -> outcome B) (l : list A)
  : outcome (list B) :=
  match l with
  | [] => Return []
  | u :: l' =>
      bind (f u) (fun v => bind (comprehension f l') (fun vs => Return (v :: vs)))
  end.

Declare Scope outcome_scope.
Notation "x <- m ;; k" := (bind m (fun x => k))
  (at level 61, m at next level, right associativity) : outcome_scope.
#[local] Open Scope outcome_scope.


Definition unwrap_body (lons : list float) (unwrapped : list float) (i : Z)
  : outcome (list float) :=
  li <- getitem lons i ;;
  lp <- getitem lons (i - 1) ;;
  let d := li - lp in
  if 180 <? d then
    u <- getitem unwrapped (-1) ;; Return (unwrapped ++ [u + (d - 360)])
  else if d <? -180 then
    u <- getitem unwrapped (-1) ;; Return (unwrapped ++ [u + (d + 360)])
  else
    u <- getitem unwrapped (-1) ;; Return (unwrapped ++ [u + d]).

Definition _unwrap_lons (lons : list float) : outcome (list float) :=
  l0 <- getitem lons 0 ;;
  unwrapped <- for_loop (range 1 (len lons)) (unwrap_body lons) [l0] ;;
  base <- getitem lons 0 ;;
  comprehension
    (fun u => u0 <- getitem unwrapped 0 ;; Return (base + (u - u0))) unwrapped.

(** [math.pi], and [math.radians(x)], which multiplies by [pi / 180]. *)
Definition pi : float := 0x1.921fb54442d18p+1.
Definition radians (x : float) : float := x * (pi / 180).

Definition EARTH_RADIUS : float := 6371008.8.

Section Sine.
Variable sin_value : float -> float.

(** [math.sin(x)]. *)
Definition sin (x : float) : outcome float :=
  if is_infinity x then Raise ValueError else Return (sin_value x).

Definition not_closed (lats_deg lons_deg : list float) : outcome bool :=
  la0 <- getitem lats_deg 0 ;;
  laN <- getitem lats_deg (-1) ;;
  if negb (la0 =? laN) then Return true
  else
    lo0 <- getitem lons_deg 0 ;;
    loN <- getitem lons_deg (-1) ;;
    Return (negb (lo0 =? loN)).

Definition area_body (lats lons : list float) (total : float) (i : Z)
  : outcome float :=
  lon1 <- getitem lons i ;;
  lon2 <- getitem lons (i + 1) ;;
  lat1 <- getitem lats i ;;
  lat2 <- getitem lats (i + 1) ;;
  s1 <- sin lat1 ;;
  s2 <- sin lat2 ;;
  Return (total + (lon2 - lon1) * (s1 + s2)).

(** [EARTH_RADIUS ** 2] is the rounded product of [EARTH_RADIUS] with
    itself. *)
Definition spherical_polygon_area_sq_m (lats_deg lons_deg : list float)
  : outcome float :=
  if (len lats_deg <? 3)%Z then Return 0
  else
    open <- not_closed lats_deg lons_deg ;;
    closed <-
      (if open : bool then
         la0 <- getitem lats_deg 0 ;;
         lo0 <- getitem lons_deg 0 ;;
         Return (lats_deg ++ [la0], lons_deg ++ [lo0])
       else Return (lats_deg, lons_deg)) ;;
    lons_deg <- _unwrap_lons (snd closed) ;;
    let lats := map radians (fst closed) in
    let lons := map radians lons_deg in
    total <- for_loop (range 0 (len lats - 1)) (area_body lats lons) 0 ;;
    let area_on_unit_sphere := 0.5 * abs total in
    let area_sq_m := area_on_unit_sphere * (EARTH_RADIUS * EARTH_RADIUS) in
    Return area_sq_m.


End Sine.

(** The two values of [math.sin] that the examples use:
    [sin(0.0) = 0.0] and [sin(radians(90.0)) = 1.0]. *)
Definition sin_0_90 (x : float) : float :=
  if x =? 0 then 0
  else if x =? 0x1.921fb54442d18p+0 then 1
  else nan.


End F64.

(** ** The specification's words *)

(** A vertex: latitude and longitude, in degrees. *)
Abbreviation point := (R * R)%type (only parsing).

Definition point_eq_dec (p q : point) : {p = q} + {p <> q}.
Proof.
  destruct p as [a b], q as [c d].
  destruct (Req_dec_T a c) as [-> | Ha].
  - destruct (Req_dec_T b d) as [-> | Hb].
    + left; reflexivity.
    + right; intros E; apply Hb; congruence.
  - right; intros E; apply Ha; congruence.
Defined.

Definition Rsum (l : list R) : R := fold_right Rplus 0 l.

Module Spec.

(** The delta to the next longitude, minus 360 when it exceeds +180 and
    plus 360 when it is below -180. *)
Definition adjust (d : R) : R :=
  if Rgt_dec d 180 then d - 360
  else if Rlt_dec d (-180) then d + 360
  else d.

(** The outputs that follow output [u], which stands for input [p]. *)
Fixpoint normalize_from (u p : R) (rest : list R) : list R :=
  match rest with
  | [] => []
  | x :: rest' =>
      let u' := u + adjust (x - p) in
      u' :: normalize_from u' x rest'
  end.

(** The Longitude Normalizer: the first output is the first input, every
    other one is the previous output plus the adjusted delta. *)
Definition normalize (lons : list R) : list R :=
  match lons with
  | [] => []
  | x :: rest => x :: normalize_from x x rest
  end.

(** Append a copy of the first point when it differs from the last. *)
Definition close (ring : list point) : list point :=
  match ring with
  | [] => []
  | p :: _ => if point_eq_dec p (last ring p) then ring else ring ++ [p]
  end.

(** The sum over consecutive vertex pairs i -> i+1 of
    [(lon[i+1] - lon[i]) * (sin(lat[i+1]) + sin(lat[i]))]. *)
Definition line_integral (lat lon : list R) : R :=
  Rsum (map (fun i => (nth (S i) lon 0 - nth i lon 0)
                      * (math.sin (nth (S i) lat 0) + math.sin (nth i lat 0)))
            (seq 0 (length lat - 1))).

(** Half the absolute value of the line integral over the closed and
    unwrapped ring, in radians, times the squared Earth radius. *)
Definition area_sq_meters (lats lons : list R) : R :=
  let ring := close (combine lats lons) in
  let lat := map math.radians (map fst ring) in
  let lon := map math.radians (normalize (map snd ring)) in
  0.5 * Rabs (line_integral lat lon) * 6371008.8 ^ 2.

(** Unit-sphere Cartesian coordinates of a vertex. *)
Definition cartesian (p : point) : R * R * R :=
  let lat := math.radians (fst p) in
  let lon := math.radians (snd p) in
  (math.cos lat * math.cos lon, math.cos lat * math.sin lon, math.sin lat).

(** The arithmetic mean of a list of numbers. *)
Definition mean (l : list R) : R := Rsum l / INR (length l).

(** The vertex-average centroid of a ring, in degrees. *)
Definition centroid (ring : list point) : R * R :=
  let c := map cartesian ring in
  let x := mean (map (fun v => fst (fst v)) c) in
  let y := mean (map (fun v => snd (fst v)) c) in
  let z := mean (map snd c) in
  (math.degrees (math.atan2 z (math.hypot x y)),
   math.degrees (math.atan2 y x)).

End Spec.

(** ** Rings as lists of points *)

(** The contribution of the edge from [p] to [q] to the sum of
    [spherical_polygon_area_sq_m], in terms of the raw longitudes. *)
Definition edge (p q : point) : R :=
  Spec.adjust (snd q - snd p) * (PI / 180)
  * (math.sin (math.radians (fst p)) + math.sin (math.radians (fst q))).

Fixpoint edge_sum (ring : list point) : R :=
  match ring with
  | [] => 0
  | p :: ring' =>
      match ring' with
      | [] => 0
      | q :: _ => edge p q + edge_sum ring'
      end
  end.

Definition ring_area (ring : list point) : R :=
  if (length ring <? 3)%nat then 0
  else 0.5 * Rabs (edge_sum (Spec.close ring)) * EARTH_RADIUS ^ 2.

(** A ring is degenerate when it has fewer than three vertices, or all its
    vertices are among two points. *)
Definition degenerate (ring : list point) : Prop :=
  (length ring < 3)%nat \/ exists A B : point, Forall (fun p => p = A \/ p = B) ring.

(** Consecutive longitudes are at most 540 degrees apart. *)
Fixpoint small_jumps (lons : list R) : Prop :=
  match lons with
  | [] => True
  | x :: rest =>
      match rest with
      | [] => True
      | y :: _ => -540 <= y - x <= 540 /\ small_jumps rest
      end
  end.

(** ** Text, records and the runtime of the parsing layer *)

(** A Python [str] is the list of its Unicode code points. *)
Abbreviation str := (list N) (only parsing).

Module Str.

Definition space : N := 32.
Definition newline : N := 10.
Definition comma : N := 44.


(** [c.isspace()]: the code points that [str.strip()] removes. *)
Definition isspace (c : N) : bool :=
  ((9 <=? c) && (c <=? 13) || (28 <=? c) && (c <=? 32)
   || (c =? 133) || (c =? 160) || (c =? 5760)
   || (8192 <=? c) && (c <=? 8202)
   || (c =? 8232) || (c =? 8233) || (c =? 8239) || (c =? 8287)
   || (c =? 12288))%N%bool.

Fixpoint lstrip (s : list N) : list N :=
  match s with
  | [] => []
  | c :: s' => if isspace c then lstrip s' else s
  end.

Definition rstrip (s : list N) : list N := rev (lstrip (rev s)).

(** [s.strip()]. *)
Definition strip (s : list N) : list N := rstrip (lstrip s).

(** [s.replace(a, b)] for one-character [a] and [b]. *)
Definition replace (a b : N) (s : list N) : list N :=
  map (fun c => if (c =? a)%N then b else c) s.

(** [s.split(sep)] for a one-character separator: one piece more than there
    are separators, empty pieces included. *)
Fixpoint split (sep : N) (s : list N) : list (list N) :=
  match s with
  | [] => [[]]
  | c :: s' =>
      if (c =? sep)%N then [] :: split sep s'
      else
        match split sep s' with
        | w :: ws => (c :: w) :: ws
        | [] => [[c]]
        end
  end.



(** The truth value of a string: non-empty. *)
Definition truthy (s : list N) : bool :=
  match s with
  | [] => false
  | _ :: _ => true
  end.

End Str.

(** What the XML library finds in one [Placemark]: the text of its [name]
    child and the text of the coordinates of its outer boundary, [None] when
    the element is missing or has no text. *)
Record placemark : Type := {
  name_text : option str;
  coordinates_text : option str
}.

(** An entry of the list that [parse_kml_polygons] returns. *)
Module Poly.
Record t : Type := { id : str; lats : list R; lons : list R }.
End Poly.

(** A row of the list that [summarize_kml_folder] returns. *)
Module Row.
Record t : Type := {
  Plot_ID : str;
  Area_ha : R;
  Latitude : R;
  Longitude : R;
  Source_File : str
}.
End Row.

(** The Python runtime and the file system, as far as the parsing layer
    uses them.  [float s] is [None] when [float(s)] raises; [xml path] is
    the list of the Placemarks of the document at [path], [None] when
    [ET.parse] raises [ParseError]; [walk folder] lists the pairs
    (root, files) that [os.walk(folder)] yields. *)
Record runtime : Type := {
  float : str -> option R;
  round : R -> Z -> R;
  lower : str -> str;
  basename : str -> str;
  join : str -> str -> str;
  relpath : str -> str -> str;
  xml : str -> option (list placemark);
  walk : str -> list (str * list str)
}.

Section Parsing.
Variable E : runtime.

(** The body of the [try] block for one token: [Some (lat, lon)] when both
    numbers are read, [None] when the block raises (fewer than two fields,
    or a field that [float] rejects). *)
Definition parse_token (p : str) : option (R * R) :=
  match Str.split Str.comma p with
  | lon_str :: lat_str :: _ =>
      match float E lon_str with
      | Some lon =>
          match float E lat_str with
          | Some lat => Some (lat, lon)
          | None => None
          end
      | None => None
      end
  | _ => None
  end.

(** One iteration of the loop over the tokens. *)
Definition coords_body (acc : list R * list R) (p : str) : list R * list R :=
  let '(lats, lons) := acc in
  match parse_token p with
  | Some (lat, lon) => (lats ++ [lat], lons ++ [lon])
  | None => (lats, lons)
  end.

(** The tokens [parts] of a coordinates text. *)
Definition coordinate_parts (text : str) : list str :=
  let raw := Str.strip text in
  filter Str.truthy (Str.split Str.space (Str.replace Str.newline Str.space raw)).

(** The latitudes and longitudes read from a coordinates text. *)
Definition parse_coordinates (text : str) : list R * list R :=
  fold_left coords_body (coordinate_parts text) ([], []).

(** One iteration of the loop over the Placemarks. *)
Definition placemark_body (kml_path : str) (results : list Poly.t)
  (pm : placemark) : list Poly.t :=
  let pid :=
    match name_text pm with
    | Some text => if Str.truthy text then Str.strip text else basename E kml_path
    | None => basename E kml_path
    end in
  match coordinates_text pm with
  | Some text =>
      if Str.truthy text then
        let '(lats, lons) := parse_coordinates text in
        if (3 <=? len lats)%Z then
          results ++ [{| Poly.id := pid; Poly.lats := lats; Poly.lons := lons |}]
        else results
      else results
  | None => results
  end.

Definition parse_kml_polygons (kml_path : str) : list Poly.t :=
  match xml E kml_path with
  | None => []
  | Some placemarks => fold_left (placemark_body kml_path) placemarks []
  end.




End Parsing.


(** A record that the geometry core accepts: three or more vertices, as many
    latitudes as longitudes. *)
Definition well_formed (poly : Poly.t) : Prop :=
  (3 <= length (Poly.lats poly))%nat
  /\ length (Poly.lats poly) = length (Poly.lons poly).


(** A runtime to run the parsing layer on examples: [float] reads strings of
    ASCII digits only, there are no files. *)
Module Example.

Definition isdigit (c : N) : bool := ((48 <=? c) && (c <=? 57))%N.

Definition digits_value (s : list N) : N :=
  fold_left (fun v c => (10 * v + (c - 48))%N) s 0%N.

Definition digits_float (s : list N) : option R :=
  if Str.truthy s && forallb isdigit s
  then Some (IZR (Z.of_N (digits_value s)))
  else None.

Definition rt : runtime := {|
  float := digits_float;
  round := fun x _ => x;
  lower := fun s => s;
  basename := fun s => s;
  join := fun a b => a ++ b;
  relpath := fun p _ => p;
  xml := fun _ => None;
  walk := fun _ => []
|}.

End Example.

(** Adds [c] to the longitude of a point. *)
Definition shift_lon (c : R) (p : point) : point := (fst p, snd p + c).

(** ** Indexing and loops *)

(** Decides the integer comparisons of a goal by case analysis. *)
Ltac zcmp :=
  repeat match goal with
    | |- context [(?a <? ?b)%Z] => destruct (Z.ltb_spec a b); try lia
    | |- context [(?a <=? ?b)%Z] => destruct (Z.leb_spec a b); try lia
    end.

Section Indexing.
Context {A : Type}.

Lemma len_app (l l' : list A) : len (l ++ l') = (len l + len l')%Z.
Proof. unfold len. rewrite length_app. lia. Qed.

Lemma getitem_nat (l : list A) (i : nat) (d : A) :
  (i < length l)%nat -> getitem l (Z.of_nat i) = Ok (nth i l d).
Proof.
  intros Hi. unfold getitem, len. zcmp. simpl.
  rewrite Nat2Z.id, (nth_error_nth' l d Hi). reflexivity.
Qed.

Lemma getitem_head (x : A) (l : list A) : getitem (x :: l) 0 = Ok x.
Proof. apply (getitem_nat (x :: l) 0 x). simpl. lia. Qed.

Lemma getitem_middle (pre : list A) (x : A) (post : list A) :
  getitem (pre ++ x :: post) (len pre) = Ok x.
Proof.
  unfold len. rewrite (getitem_nat _ _ x).
  - rewrite nth_middle. reflexivity.
  - rewrite length_app. simpl. lia.
Qed.

Lemma getitem_last (l : list A) (x : A) : getitem (l ++ [x]) (-1) = Ok x.
Proof.
  unfold getitem. rewrite len_app. unfold len. simpl length.
  zcmp. cbv [andb].
  replace (Z.to_nat (-1 + (Z.of_nat (length l) + Z.of_nat 1))) with (length l)
    by lia.
  rewrite nth_error_app2 by lia. rewrite Nat.sub_diag. reflexivity.
Qed.

Lemma getitem_minus_one (x : A) (l : list A) :
  getitem (x :: l) (-1) = Ok (last (x :: l) x).
Proof.
  destruct (exists_last (l := x :: l)) as (l' & y & E); [discriminate|].
  rewrite E, last_last. apply getitem_last.
Qed.

Lemma getitem_empty (i : Z) : getitem (@nil A) i = IndexError.
Proof.
  unfold getitem, len. simpl length. zcmp; reflexivity.
Qed.

End Indexing.

Lemma seq_offset (a n k : nat) :
  seq (a + k) n = map (fun j => (a + j)%nat) (seq k n).
Proof.
  revert k. induction n as [|n IH]; intros k; simpl.
  - reflexivity.
  - f_equal. rewrite <- Nat.add_succ_r. apply IH.
Qed.

Lemma range_seq (a n : nat) :
  range (Z.of_nat a) (Z.of_nat (a + n)) = map Z.of_nat (seq a n).
Proof.
  unfold range.
  replace (Z.to_nat (Z.of_nat (a + n) - Z.of_nat a)) with n by lia.
  replace (seq a n) with (seq (a + 0) n) by (f_equal; lia).
  rewrite seq_offset, map_map.
  apply map_ext. intros k. lia.
Qed.

(** A loop whose body adds [f i] to the running total computes the sum. *)
Lemma for_loop_sum (idx : list Z) (body : R -> Z -> result R) (f : Z -> R) :
  (forall i t, In i idx -> body t i = Ok (t + f i)) ->
  forall t, for_loop idx body t = Ok (t + Rsum (map f idx)).
Proof.
  induction idx as [|i idx IH]; intros Hbody t; simpl.
  - f_equal. lra.
  - rewrite Hbody by (left; reflexivity). simpl.
    rewrite IH by (intros; apply Hbody; right; assumption).
    f_equal. lra.
Qed.

(** ** [_unwrap_lons] computes the Normalizer *)

Lemma adjust_cases (d : R) :
  (d > 180 /\ Spec.adjust d = d - 360)
  \/ (d < -180 /\ Spec.adjust d = d + 360)
  \/ (-180 <= d <= 180 /\ Spec.adjust d = d).
Proof.
  unfold Spec.adjust.
  destruct (Rgt_dec d 180); [left; split; [assumption | reflexivity]|].
  destruct (Rlt_dec d (-180)); [right; left; split; [assumption | reflexivity]|].
  right; right. split; [lra | reflexivity].
Qed.

Lemma unwrap_body_step (pre : list R) (p x : R) (rest us : list R) (u : R) :
  unwrap_body (pre ++ p :: x :: rest) (us ++ [u]) (Z.of_nat (S (length pre)))
  = Ok ((us ++ [u]) ++ [u + Spec.adjust (x - p)]).
Proof.
  unfold unwrap_body.
  replace (Z.of_nat (S (length pre))) with (len (pre ++ [p]))
    by (rewrite len_app; unfold len; simpl; lia).
  replace (pre ++ p :: x :: rest) with ((pre ++ [p]) ++ x :: rest) at 1
    by (rewrite <- app_assoc; reflexivity).
  rewrite getitem_middle. simpl bind.
  replace (len (pre ++ [p]) - 1)%Z with (len pre)
    by (rewrite len_app; unfold len; simpl; lia).
  rewrite getitem_middle. simpl bind.
  unfold Spec.adjust.
  destruct (Rgt_dec (x - p) 180); [rewrite getitem_last; reflexivity|].
  destruct (Rlt_dec (x - p) (-180)); rewrite getitem_last; reflexivity.
Qed.

Lemma unwrap_loop (rest : list R) :
  forall (pre : list R) (p : R) (us : list R) (u : R),
    for_loop (map Z.of_nat (seq (S (length pre)) (length rest)))
      (unwrap_body (pre ++ p :: rest)) (us ++ [u])
    = Ok ((us ++ [u]) ++ Spec.normalize_from u p rest).
Proof.
  induction rest as [|x rest IH]; intros pre p us u.
  - simpl. rewrite app_nil_r. reflexivity.
  - simpl length. simpl seq. simpl map. simpl for_loop.
    rewrite unwrap_body_step. simpl bind.
    specialize (IH (pre ++ [p]) x (us ++ [u]) (u + Spec.adjust (x - p))).
    rewrite <- app_assoc in IH. simpl app in IH.
    rewrite length_app in IH. simpl length in IH.
    replace (length pre + 1)%nat with (S (length pre)) in IH by lia.
    rewrite IH. simpl. rewrite <- !app_assoc. reflexivity.
Qed.

Lemma comprehension_id {A : Type} (f : A -> result A) (l : list A) :
  (forall u, f u = Ok u) -> comprehension f l = Ok l.
Proof.
  intros Hf. induction l as [|u l IH]; cbn [comprehension].
  - reflexivity.
  - rewrite Hf, IH. reflexivity.
Qed.

Lemma rebase_comprehension (x : R) (us l : list R) :
  comprehension (fun u => u0 <- getitem (x :: us) 0 ;; Ok (x + (u - u0))) l
  = Ok l.
Proof.
  apply comprehension_id. intros u.
  rewrite getitem_head. cbn [bind]. f_equal. lra.
Qed.

Lemma unwrap_lons_cons (x : R) (rest : list R) :
  _unwrap_lons (x :: rest) = Ok (Spec.normalize (x :: rest)).
Proof.
  unfold _unwrap_lons. rewrite getitem_head. simpl bind.
  change 1%Z with (Z.of_nat 1). unfold len. simpl length.
  replace (S (length rest)) with (1 + length rest)%nat by lia.
  rewrite range_seq.
  pose proof (unwrap_loop rest [] x [] x) as H. cbn [app length] in H.
  rewrite H. cbn [bind app]. apply rebase_comprehension.
Qed.

Lemma unwrap_lons_nil : _unwrap_lons [] = IndexError.
Proof. unfold _unwrap_lons. rewrite getitem_empty. reflexivity. Qed.

Lemma normalize_from_length (rest : list R) :
  forall u p, length (Spec.normalize_from u p rest) = length rest.
Proof. induction rest as [|x rest IH]; intros u p; simpl; [|rewrite IH]; reflexivity. Qed.

Lemma normalize_length (lons : list R) :
  length (Spec.normalize lons) = length lons.
Proof. destruct lons; simpl; [|rewrite normalize_from_length]; reflexivity. Qed.

(** Each output is the previous output plus the adjusted raw delta. *)
Lemma normalize_from_nth (rest : list R) :
  forall (u p : R) (i : nat),
    (i < length rest)%nat ->
    nth i (Spec.normalize_from u p rest) 0
    = nth i (u :: Spec.normalize_from u p rest) 0
      + Spec.adjust (nth i rest 0 - nth i (p :: rest) 0).
Proof.
  induction rest as [|x rest IH]; intros u p i Hi; simpl in Hi; [lia|].
  destruct i as [|i].
  - reflexivity.
  - simpl. rewrite IH by lia. reflexivity.
Qed.

Lemma normalize_nth (lons : list R) (i : nat) :
  (S i < length lons)%nat ->
  nth (S i) (Spec.normalize lons) 0
  = nth i (Spec.normalize lons) 0 + Spec.adjust (nth (S i) lons 0 - nth i lons 0).
Proof.
  destruct lons as [|x rest]; simpl; intros Hi; [lia|].
  apply normalize_from_nth. lia.
Qed.

(** The adjustment changes a delta by a whole number of turns. *)
Lemma adjust_turns (d : R) :
  exists k : Z, Spec.adjust d - d = 360 * IZR k.
Proof.
  destruct (adjust_cases d) as [[_ ->] | [[_ ->] | [_ ->]]].
  - exists (-1)%Z. lra.
  - exists 1%Z. lra.
  - exists 0%Z. lra.
Qed.

Lemma normalize_from_turns (rest : list R) :
  forall (u p : R) (k0 : Z) (i : nat),
    u - p = 360 * IZR k0 ->
    (i < length rest)%nat ->
    exists k : Z, nth i (Spec.normalize_from u p rest) 0 - nth i rest 0 = 360 * IZR k.
Proof.
  induction rest as [|x rest IH]; intros u p k0 i Hk Hi; simpl in Hi; [lia|].
  destruct (adjust_turns (x - p)) as [k1 Hk1].
  assert (Hx : u + Spec.adjust (x - p) - x = 360 * IZR (k0 + k1)).
  { rewrite plus_IZR. lra. }
  destruct i as [|i]; simpl.
  - exists (k0 + k1)%Z. exact Hx.
  - apply (IH _ _ (k0 + k1)%Z); [exact Hx | lia].
Qed.

Lemma normalize_turns (lons : list R) (i : nat) :
  (i < length lons)%nat ->
  exists k : Z, nth i (Spec.normalize lons) 0 - nth i lons 0 = 360 * IZR k.
Proof.
  destruct lons as [|x rest]; simpl; intros Hi; [lia|].
  destruct i as [|i].
  - exists 0%Z. lra.
  - apply (normalize_from_turns rest x x 0%Z); [lra | lia].
Qed.

(** A delta of at most 540 degrees is adjusted into [-180, 180]. *)
Lemma adjust_range (d : R) :
  -540 <= d <= 540 -> -180 <= Spec.adjust d <= 180.
Proof.
  intros Hd. destruct (adjust_cases d) as [[? ->] | [[? ->] | [? ->]]]; lra.
Qed.

Lemma adjust_fixed (d : R) : -180 <= d <= 180 -> Spec.adjust d = d.
Proof.
  intros Hd. destruct (adjust_cases d) as [[? ->] | [[? ->] | [? ->]]]; lra.
Qed.

Lemma normalize_from_idem (rest : list R) :
  forall u p : R,
    small_jumps (p :: rest) ->
    Spec.normalize_from u u (Spec.normalize_from u p rest)
    = Spec.normalize_from u p rest.
Proof.
  induction rest as [|x rest IH]; intros u p Hs.
  - reflexivity.
  - destruct Hs as [Hd Hs]. cbn [Spec.normalize_from].
    set (u' := u + Spec.adjust (x - p)).
    assert (E : u + Spec.adjust (u' - u) = u').
    { unfold u'. rewrite adjust_fixed.
      - lra.
      - replace (u + Spec.adjust (x - p) - u) with (Spec.adjust (x - p)) by lra.
        apply adjust_range, Hd. }
    rewrite E, IH by exact Hs. reflexivity.
Qed.

Lemma normalize_idem (lons : list R) :
  small_jumps lons -> Spec.normalize (Spec.normalize lons) = Spec.normalize lons.
Proof.
  destruct lons as [|x rest]; intros Hs; [reflexivity|].
  cbn [Spec.normalize]. f_equal. apply normalize_from_idem, Hs.
Qed.

(** The bound is exact: a larger jump is adjusted again on a second pass. *)
Lemma adjust_fixed_inv (d : R) :
  Spec.adjust (Spec.adjust d) = Spec.adjust d -> -540 <= d <= 540.
Proof.
  destruct (adjust_cases d) as [[? ->] | [[? ->] | [? ->]]];
    [destruct (adjust_cases (d - 360)) as [[? ->] | [[? ->] | [? ->]]]
    |destruct (adjust_cases (d + 360)) as [[? ->] | [[? ->] | [? ->]]]
    |]; lra.
Qed.

Lemma normalize_from_idem_inv (rest : list R) :
  forall u p : R,
    Spec.normalize_from u u (Spec.normalize_from u p rest)
    = Spec.normalize_from u p rest ->
    small_jumps (p :: rest).
Proof.
  induction rest as [|x rest IH]; intros u p H; [exact I|].
  cbn [Spec.normalize_from] in H. injection H as Hhd Htl.
  assert (Hfix : Spec.adjust (Spec.adjust (x - p)) = Spec.adjust (x - p)).
  { replace (u + Spec.adjust (x - p) - u) with (Spec.adjust (x - p)) in Hhd
      by lra. lra. }
  split; [apply adjust_fixed_inv, Hfix|].
  rewrite Hhd in Htl. apply (IH _ _ Htl).
Qed.

(** Longitudes in the usual range are never more than 360 degrees apart. *)
Lemma in_range_small_jumps (lons : list R) :
  Forall (fun x => -180 <= x <= 180) lons -> small_jumps lons.
Proof.
  induction 1 as [|x rest Hx Hrest IH]; [exact I|].
  destruct rest as [|y rest]; [exact I|].
  split; [|exact IH].
  inversion Hrest; subst. lra.
Qed.

(** ** The summation loop of [spherical_polygon_area_sq_m] *)

Lemma area_body_nat (lats lons : list R) (total : R) (i : nat) :
  (S i < length lats)%nat ->
  (S i < length lons)%nat ->
  area_body lats lons total (Z.of_nat i)
  = Ok (total + (nth (S i) lons 0 - nth i lons 0)
                * (math.sin (nth (S i) lats 0) + math.sin (nth i lats 0))).
Proof.
  intros Hlat Hlon. unfold area_body.
  replace (Z.of_nat i + 1)%Z with (Z.of_nat (S i)) by lia.
  rewrite (getitem_nat lons i 0) by lia. cbn [bind].
  rewrite (getitem_nat lons (S i) 0) by lia. cbn [bind].
  rewrite (getitem_nat lats i 0) by lia. cbn [bind].
  rewrite (getitem_nat lats (S i) 0) by lia. cbn [bind].
  f_equal. lra.
Qed.

Lemma area_loop (lats lons : list R) :
  length lats = length lons ->
  for_loop (range 0 (len lats - 1)) (area_body lats lons) 0
  = Ok (Spec.line_integral lats lons).
Proof.
  intros Hlen. unfold len.
  destruct lats as [|a lats].
  - reflexivity.
  - replace (Z.of_nat (length (a :: lats)) - 1)%Z
      with (Z.of_nat (0 + length lats)) by (simpl length; lia).
    change (range 0 (Z.of_nat (0 + length lats)))
      with (range (Z.of_nat 0) (Z.of_nat (0 + length lats))).
    rewrite range_seq.
    rewrite (for_loop_sum _ _
      (fun i => (nth (S (Z.to_nat i)) lons 0 - nth (Z.to_nat i) lons 0)
                * (math.sin (nth (S (Z.to_nat i)) (a :: lats) 0)
                   + math.sin (nth (Z.to_nat i) (a :: lats) 0)))).
    + f_equal. unfold Spec.line_integral.
      simpl length.
      replace (S (length lats) - 1)%nat with (length lats) by lia.
      rewrite map_map, Rplus_0_l.
      f_equal. apply map_ext. intros i. rewrite Nat2Z.id. reflexivity.
    + intros i t Hi. apply in_map_iff in Hi. destruct Hi as (k & <- & Hk).
      apply in_seq in Hk. rewrite Nat2Z.id.
      apply area_body_nat; simpl length in *; lia.
Qed.

Lemma line_integral_cons (a b : R) (lat : list R) (x y : R) (lon : list R) :
  Spec.line_integral (a :: b :: lat) (x :: y :: lon)
  = (y - x) * (math.sin b + math.sin a)
    + Spec.line_integral (b :: lat) (y :: lon).
Proof.
  unfold Spec.line_integral. simpl length.
  replace (S (S (length lat)) - 1)%nat with (S (length lat)) by lia.
  replace (S (length lat) - 1)%nat with (length lat) by lia.
  cbn [seq map Rsum fold_right nth]. f_equal.
  rewrite <- seq_shift, map_map. reflexivity.
Qed.

Lemma line_integral_single (a : R) (lon : list R) :
  Spec.line_integral [a] lon = 0.
Proof. reflexivity. Qed.

(** Over the unwrapped longitudes the sum is the sum of the edge terms. *)
Lemma line_integral_edges (rest : list point) :
  forall (p : point) (u : R),
    Spec.line_integral
      (map math.radians (map fst (p :: rest)))
      (map math.radians (u :: Spec.normalize_from u (snd p) (map snd rest)))
    = edge_sum (p :: rest).
Proof.
  induction rest as [|q rest IH]; intros p u.
  - reflexivity.
  - cbn [map Spec.normalize_from]. rewrite line_integral_cons.
    specialize (IH q (u + Spec.adjust (snd q - snd p))).
    cbn [map] in IH. rewrite IH.
    cbn [edge_sum]. f_equal.
    unfold edge, math.radians. lra.
Qed.

Lemma line_integral_ring (ring : list point) :
  Spec.line_integral
    (map math.radians (map fst ring))
    (map math.radians (Spec.normalize (map snd ring)))
  = edge_sum ring.
Proof.
  destruct ring as [|p rest]; [reflexivity|].
  apply line_integral_edges.
Qed.

(** ** Edge sums *)

Lemma adjust_odd (d : R) : Spec.adjust (- d) = - Spec.adjust d.
Proof.
  destruct (adjust_cases d) as [[? ->] | [[? ->] | [? ->]]];
    destruct (adjust_cases (- d)) as [[? ->] | [[? ->] | [? ->]]]; lra.
Qed.

Lemma edge_antisym (p q : point) : edge q p = - edge p q.
Proof.
  unfold edge.
  replace (snd p - snd q) with (- (snd q - snd p)) by lra.
  rewrite adjust_odd. lra.
Qed.

Lemma edge_refl (p : point) : edge p p = 0.
Proof.
  unfold edge. replace (snd p - snd p) with 0 by lra.
  rewrite adjust_fixed by lra. lra.
Qed.

Lemma edge_sum_cons (p q : point) (l : list point) :
  edge_sum (p :: q :: l) = edge p q + edge_sum (q :: l).
Proof. reflexivity. Qed.

Lemma edge_sum_snoc (l : list point) (q d : point) :
  l <> [] -> edge_sum (l ++ [q]) = edge_sum l + edge (last l d) q.
Proof.
  induction l as [|p l IH]; intros Hne; [congruence|].
  destruct l as [|p' l].
  - simpl. lra.
  - change ((p :: p' :: l) ++ [q]) with (p :: p' :: (l ++ [q])).
    rewrite !edge_sum_cons.
    change (p' :: l ++ [q]) with ((p' :: l) ++ [q]).
    rewrite IH by discriminate.
    change (last (p :: p' :: l) d) with (last (p' :: l) d). lra.
Qed.

Lemma last_cons {A : Type} (l : list A) :
  forall q p : A, last (q :: l) p = last l q.
Proof.
  induction l as [|a l IH]; intros q p; [reflexivity|].
  change (last (q :: a :: l) p) with (last (a :: l) p).
  rewrite (IH a p), (IH a q). reflexivity.
Qed.

Lemma last_in {A : Type} (l : list A) (q : A) : In (last l q) (q :: l).
Proof.
  rewrite <- last_cons with (p := q).
  destruct (exists_last (l := q :: l)) as (l' & y & E); [discriminate|].
  rewrite E, last_last. apply in_or_app. right. left. reflexivity.
Qed.

Lemma last_rev {A : Type} (l : list A) (d : A) : last (rev l) d = hd d l.
Proof.
  destruct l as [|a l]; [reflexivity|].
  simpl. apply last_last.
Qed.

Lemma hd_rev {A : Type} (l : list A) (d : A) : hd d (rev l) = last l d.
Proof.
  rewrite <- (rev_involutive l) at 2. symmetry. apply last_rev.
Qed.

Lemma edge_sum_rev (l : list point) : edge_sum (rev l) = - edge_sum l.
Proof.
  induction l as [|p l IH]; [simpl; lra|].
  destruct l as [|q l]; [simpl; lra|].
  change (rev (p :: q :: l)) with (rev (q :: l) ++ [p]).
  rewrite (edge_sum_snoc _ _ p).
  - rewrite IH, last_rev, edge_sum_cons. simpl hd.
    rewrite (edge_antisym p q). lra.
  - simpl. intros E. apply app_eq_nil in E. destruct E; discriminate.
Qed.

(** Along a path that visits two points only, the edge terms telescope. *)
Lemma edge_sum_two_points (A B : point) (l : list point) :
  forall p : point,
    Forall (fun x => x = A \/ x = B) (p :: l) ->
    edge_sum (p :: l) = edge p (last l p).
Proof.
  induction l as [|q l IH]; intros p Hall.
  - simpl. rewrite edge_refl. reflexivity.
  - rewrite edge_sum_cons. inversion Hall as [|? ? Hp Hrest]; subst.
    rewrite (IH q Hrest), last_cons.
    assert (Hr : last l q = A \/ last l q = B).
    { rewrite Forall_forall in Hrest. apply Hrest, last_in. }
    inversion Hrest as [|? ? Hq _]; subst.
    destruct Hp as [-> | ->], Hq as [-> | ->], Hr as [-> | ->];
      rewrite ?edge_refl, ?(edge_antisym B A); lra.
Qed.

(** ** [spherical_polygon_area_sq_m] on a ring of points *)

Lemma last_map_point {A B : Type} (f : A -> B) (l : list A) (d : A) :
  last (map f l) (f d) = f (last l d).
Proof.
  induction l as [|a l IH]; [reflexivity|].
  destruct l as [|b l]; [reflexivity|]. exact IH.
Qed.

Lemma map_fst_combine (lats lons : list R) :
  length lats = length lons -> map fst (combine lats lons) = lats.
Proof.
  revert lons. induction lats as [|a lats IH]; intros [|b lons] H;
    simpl in *; try discriminate; [reflexivity|].
  f_equal. apply IH. lia.
Qed.

Lemma map_snd_combine (lats lons : list R) :
  length lats = length lons -> map snd (combine lats lons) = lons.
Proof.
  revert lons. induction lats as [|a lats IH]; intros [|b lons] H;
    simpl in *; try discriminate; [reflexivity|].
  f_equal. apply IH. lia.
Qed.

Lemma not_closed_ring (p : point) (rest : list point) :
  not_closed (map fst (p :: rest)) (map snd (p :: rest))
  = Ok (if point_eq_dec p (last (p :: rest) p) then false else true).
Proof.
  unfold not_closed. cbn [map].
  rewrite !getitem_head, !getitem_minus_one. cbn [bind].
  change (fst p :: map fst rest) with (map fst (p :: rest)).
  change (snd p :: map snd rest) with (map snd (p :: rest)).
  rewrite !last_map_point. cbn [bind].
  generalize (last (p :: rest) p). intros q.
  destruct (Req_dec_T (fst p) (fst q)) as [E1 | N1].
  - cbn [bind]. destruct (Req_dec_T (snd p) (snd q)) as [E2 | N2].
    + destruct (point_eq_dec p q) as [_ | N]; [reflexivity|].
      exfalso. apply N. destruct p, q; simpl in *; congruence.
    + destruct (point_eq_dec p q) as [E | _]; [|reflexivity].
      exfalso. apply N2. congruence.
  - destruct (point_eq_dec p q) as [E | _]; [|reflexivity].
    exfalso. apply N1. congruence.
Qed.

Lemma close_nonempty (ring : list point) : ring <> [] -> Spec.close ring <> [].
Proof.
  destruct ring as [|p rest]; [congruence|]. intros _. unfold Spec.close.
  destruct (point_eq_dec p (last (p :: rest) p)); [discriminate|].
  simpl. discriminate.
Qed.

Lemma unwrap_lons_ring (ring : list point) :
  ring <> [] ->
  _unwrap_lons (map snd ring) = Ok (Spec.normalize (map snd ring)).
Proof.
  destruct ring as [|p rest]; [congruence|]. intros _. apply unwrap_lons_cons.
Qed.

(** The result of the function in terms of the closed ring and the
    Normalizer, for a ring of three or more vertices. *)
Lemma area_of_ring_formula (ring : list point) :
  (3 <= length ring)%nat ->
  spherical_polygon_area_sq_m (map fst ring) (map snd ring)
  = Ok (0.5 * Rabs (Spec.line_integral
                      (map math.radians (map fst (Spec.close ring)))
                      (map math.radians
                         (Spec.normalize (map snd (Spec.close ring)))))
        * EARTH_RADIUS ^ 2).
Proof.
  intros Hlen. unfold spherical_polygon_area_sq_m.
  assert (Hc : (len (map fst ring) <? 3)%Z = false).
  { unfold len. rewrite length_map. apply Z.ltb_ge. lia. }
  rewrite Hc. clear Hc.
  destruct ring as [|p rest]; [simpl in Hlen; lia|].
  rewrite not_closed_ring. cbn [bind].
  assert (Hrun : forall ring' : list point,
    ring' <> [] ->
    (lons_deg <- _unwrap_lons (map snd ring') ;;
     total <- for_loop
                (range 0 (len (map math.radians (map fst ring')) - 1))
                (area_body (map math.radians (map fst ring'))
                           (map math.radians lons_deg)) 0 ;;
     Ok (0.5 * Rabs total * EARTH_RADIUS ^ 2))
    = Ok (0.5 * Rabs (Spec.line_integral
                        (map math.radians (map fst ring'))
                        (map math.radians (Spec.normalize (map snd ring'))))
          * EARTH_RADIUS ^ 2)).
  { intros ring' Hne. rewrite unwrap_lons_ring by exact Hne. cbn [bind].
    rewrite area_loop; [reflexivity|].
    rewrite !length_map, normalize_length, length_map. reflexivity. }
  unfold Spec.close.
  destruct (point_eq_dec p (last (p :: rest) p)) as [E | N].
  - cbn [bind]. apply Hrun. discriminate.
  - cbn [map]. rewrite !getitem_head. cbn [bind].
    change (fst p :: map fst rest) with (map fst (p :: rest)).
    change (snd p :: map snd rest) with (map snd (p :: rest)).
    change [fst p] with (map fst [p]). change [snd p] with (map snd [p]).
    rewrite <- !map_app. apply Hrun.
    intros E. apply app_eq_nil in E. destruct E; discriminate.
Qed.

Lemma area_short (lats lons : list R) :
  (length lats < 3)%nat -> spherical_polygon_area_sq_m lats lons = Ok 0.
Proof.
  intros Hlen. unfold spherical_polygon_area_sq_m, len.
  destruct (Z.ltb_spec (Z.of_nat (length lats)) 3); [reflexivity | lia].
Qed.

Lemma area_of_ring (ring : list point) :
  spherical_polygon_area_sq_m (map fst ring) (map snd ring)
  = Ok (ring_area ring).
Proof.
  unfold ring_area. destruct (Nat.ltb_spec (length ring) 3) as [Hlt | Hge].
  - apply area_short. rewrite length_map. exact Hlt.
  - rewrite area_of_ring_formula by exact Hge.
    rewrite line_integral_ring. reflexivity.
Qed.

Lemma area_of_lists (lats lons : list R) :
  length lats = length lons ->
  spherical_polygon_area_sq_m lats lons = Ok (ring_area (combine lats lons)).
Proof.
  intros Hlen. rewrite <- area_of_ring.
  rewrite map_fst_combine, map_snd_combine by exact Hlen. reflexivity.
Qed.

(** ** Properties of the area of a ring *)

Lemma close_hd_last (ring : list point) (d : point) :
  ring <> [] ->
  Spec.close ring
  = if point_eq_dec (hd d ring) (last ring d) then ring else ring ++ [hd d ring].
Proof.
  destruct ring as [|p rest]; [congruence|]. intros _.
  unfold Spec.close. cbn [hd]. rewrite !last_cons. reflexivity.
Qed.

Lemma area_of_sum_zero (s : R) :
  s = 0 -> 0.5 * Rabs s * EARTH_RADIUS ^ 2 = 0.
Proof. intros ->. rewrite Rabs_R0. lra. Qed.

Lemma ring_area_nonneg (ring : list point) : 0 <= ring_area ring.
Proof.
  unfold ring_area. destruct (length ring <? 3)%nat; [lra|].
  apply Rmult_le_pos; [|apply pow2_ge_0].
  apply Rmult_le_pos; [lra | apply Rabs_pos].
Qed.

Lemma ring_area_two_points (A B : point) (ring : list point) :
  Forall (fun p => p = A \/ p = B) ring -> ring_area ring = 0.
Proof.
  intros Hall. unfold ring_area.
  destruct (length ring <? 3)%nat; [reflexivity|].
  apply area_of_sum_zero.
  destruct ring as [|p rest]; [reflexivity|].
  unfold Spec.close.
  destruct (point_eq_dec p (last (p :: rest) p)) as [E | N].
  - rewrite (edge_sum_two_points A B) by exact Hall.
    rewrite last_cons in E. rewrite <- E. apply edge_refl.
  - change ((p :: rest) ++ [p]) with (p :: (rest ++ [p])).
    rewrite (edge_sum_two_points A B).
    + rewrite last_last. apply edge_refl.
    + change (p :: rest ++ [p]) with ((p :: rest) ++ [p]).
      apply Forall_app. split; [exact Hall|].
      constructor; [|constructor]. inversion Hall; assumption.
Qed.

Lemma ring_area_degenerate (ring : list point) :
  degenerate ring -> ring_area ring = 0.
Proof.
  intros [Hlt | (A & B & Hall)].
  - unfold ring_area. destruct (Nat.ltb_spec (length ring) 3); [reflexivity | lia].
  - apply (ring_area_two_points A B), Hall.
Qed.

Lemma ring_area_rev (ring : list point) : ring_area (rev ring) = ring_area ring.
Proof.
  unfold ring_area. rewrite length_rev.
  destruct (Nat.ltb_spec (length ring) 3) as [_ | Hge]; [reflexivity|].
  assert (Hne : ring <> []) by (intros ->; simpl in Hge; lia).
  assert (Hne' : rev ring <> []).
  { intros E. apply Hne. rewrite <- (rev_involutive ring), E. reflexivity. }
  do 2 f_equal.
  rewrite (close_hd_last (rev ring) (0, 0) Hne'), (close_hd_last ring (0, 0) Hne).
  rewrite hd_rev, last_rev.
  set (p := hd (0, 0) ring). set (q := last ring (0, 0)).
  assert (Hsum : edge_sum (rev ring ++ [q]) = - edge_sum (ring ++ [p])).
  { rewrite (edge_sum_snoc _ _ (0, 0) Hne'), (edge_sum_snoc _ _ (0, 0) Hne).
    rewrite last_rev, edge_sum_rev. fold p q.
    rewrite (edge_antisym p q). lra. }
  destruct (point_eq_dec q p) as [E | N], (point_eq_dec p q) as [E' | N'];
    try congruence.
  - rewrite edge_sum_rev. apply Rabs_Ropp.
  - rewrite Hsum. apply Rabs_Ropp.
Qed.

Lemma ring_area_closed (p : point) (rest : list point) :
  p <> last (p :: rest) p ->
  ring_area ((p :: rest) ++ [p]) = ring_area (p :: rest).
Proof.
  intros N. destruct rest as [|q rest]; [simpl in N; congruence|].
  destruct rest as [|r rest].
  - unfold ring_area. simpl length. cbn [Nat.ltb Nat.leb].
    apply area_of_sum_zero. unfold Spec.close. cbn [app last].
    destruct (point_eq_dec p p) as [_ | N']; [|congruence].
    cbn [edge_sum]. rewrite (edge_antisym p q). lra.
  - unfold ring_area. rewrite length_app. simpl length. cbn [Nat.ltb Nat.leb Nat.add].
    do 2 f_equal.
    rewrite (close_hd_last ((p :: q :: r :: rest) ++ [p]) p) by discriminate.
    rewrite last_last. cbn [hd app].
    destruct (point_eq_dec p p) as [_ | N']; [|congruence].
    unfold Spec.close.
    destruct (point_eq_dec p (last (p :: q :: r :: rest) p)) as [E | _];
      [congruence | reflexivity].
Qed.

(** ** The accumulation loop of [centroid_latlon] *)

Lemma centroid_loop (ring : list point) :
  forall x y z : R,
    fold_left centroid_body ring (x, y, z)
    = (x + Rsum (map (fun v => fst (fst v)) (map Spec.cartesian ring)),
       y + Rsum (map (fun v => snd (fst v)) (map Spec.cartesian ring)),
       z + Rsum (map snd (map Spec.cartesian ring))).
Proof.
  induction ring as [|[lat lon] ring IH]; intros x y z.
  - simpl. rewrite !Rplus_0_r. reflexivity.
  - cbn [fold_left centroid_body]. rewrite IH.
    cbn [map Spec.cartesian fst snd]. unfold Rsum. cbn [fold_right].
    rewrite !Rplus_assoc. reflexivity.
Qed.

Lemma combine_length_eq (lats lons : list R) :
  length lats = length lons -> length (combine lats lons) = length lats.
Proof. intros H. rewrite length_combine, <- H. apply Nat.min_id. Qed.

(** ** Evaluation on concrete longitudes *)

(** Decides the comparisons of [Spec.adjust] at concrete arguments. *)
Ltac decide_adjust :=
  unfold Spec.adjust;
  repeat match goal with
    | |- context [Rgt_dec ?a ?b] => destruct (Rgt_dec a b); try (exfalso; lra)
    | |- context [Rlt_dec ?a ?b] => destruct (Rlt_dec a b); try (exfalso; lra)
    end.

Example unwrap_dateline :
  _unwrap_lons [179; -179; -179; 179] = Ok [179; 181; 181; 179].
Proof.
  rewrite unwrap_lons_cons. cbn [Spec.normalize Spec.normalize_from].
  replace (179 + Spec.adjust (-179 - 179)) with 181 by (decide_adjust; lra).
  replace (181 + Spec.adjust (-179 - -179)) with 181 by (decide_adjust; lra).
  replace (181 + Spec.adjust (179 - -179)) with 179 by (decide_adjust; lra).
  reflexivity.
Qed.

Example unwrap_600 : _unwrap_lons [0; 600] = Ok [0; 240].
Proof.
  rewrite unwrap_lons_cons. cbn [Spec.normalize Spec.normalize_from].
  replace (0 + Spec.adjust (600 - 0)) with 240 by (decide_adjust; lra).
  reflexivity.
Qed.

Example unwrap_240 : _unwrap_lons [0; 240] = Ok [0; -120].
Proof.
  rewrite unwrap_lons_cons. cbn [Spec.normalize Spec.normalize_from].
  replace (0 + Spec.adjust (240 - 0)) with (-120) by (decide_adjust; lra).
  reflexivity.
Qed.

Example unwrap_empty_fails : _unwrap_lons [] = IndexError.
Proof. exact unwrap_lons_nil. Qed.

(** The triangle (0,0), (0,1), (1,0), given open: the first point is appended
    and only the edge from (0,1) to (1,0) contributes. *)
Example area_triangle :
  spherical_polygon_area_sq_m [0; 0; 1] [0; 1; 0]
  = Ok (0.5 * (PI / 180 * math.sin (PI / 180)) * EARTH_RADIUS ^ 2).
Proof.
  rewrite area_of_lists by reflexivity.
  unfold ring_area. cbn [combine length Nat.ltb Nat.leb].
  unfold Spec.close. cbn [last].
  destruct (point_eq_dec (0, 0) (1, 0)) as [E | _].
  { exfalso. injection E as E. lra. }
  cbn [app edge_sum]. unfold edge. cbn [fst snd].
  replace (Spec.adjust (1 - 0)) with 1 by (decide_adjust; lra).
  replace (Spec.adjust (0 - 1)) with (-1) by (decide_adjust; lra).
  replace (Spec.adjust (0 - 0)) with 0 by (decide_adjust; lra).
  unfold math.radians. rewrite !Rmult_0_l.
  change (math.sin 0) with (Rtrigo_def.sin 0). rewrite sin_0.
  replace (1 * (PI / 180)) with (PI / 180) by lra.
  assert (Hpi : 0 < PI) by apply PI_RGT_0.
  assert (Hsin : 0 < math.sin (PI / 180)).
  { apply sin_gt_0; lra. }
  do 3 f_equal.
  match goal with |- Rabs ?s = ?t => replace s with (- t) by lra end.
  rewrite Rabs_Ropp. apply Rabs_pos_eq.
  apply Rmult_le_pos; [|lra]. lra.
Qed.

(** With fewer longitudes than latitudes the summation loop runs past the
    end of the longitudes. *)
Example area_unequal_lengths :
  spherical_polygon_area_sq_m [0; 0; 1] [0; 1] = IndexError.
Proof.
  unfold spherical_polygon_area_sq_m.
  change (len [0; 0; 1] <? 3)%Z with false. cbv iota.
  unfold not_closed. rewrite getitem_head, getitem_minus_one.
  cbn [bind last].
  destruct (Req_dec_T 0 1) as [E | _]; [lra|].
  cbn [bind]. rewrite !getitem_head. cbn [bind app].
  rewrite unwrap_lons_cons. reflexivity.
Qed.

(** Replaces equal-length coordinate lists by the projections of a ring. *)
Ltac as_ring lats lons Hlen ring :=
  let Hf := fresh "Hf" in
  let Hs := fresh "Hs" in
  pose proof (map_fst_combine lats lons Hlen) as Hf;
  pose proof (map_snd_combine lats lons Hlen) as Hs;
  revert Hf Hs; generalize (combine lats lons); intros ring Hf Hs;
  clear Hlen; subst lats lons.

(** ** The claims *)

(** C1. For every pair of equal-length sequences of latitudes and longitudes
    in degrees with at least three elements, [spherical_polygon_area_sq_m]
    returns 0.5 times the absolute value of the sum, over the consecutive
    vertex pairs of the ring closed (first point appended when it differs
    from the last) and then unwrapped, of
    [(lon[i+1] - lon[i]) * (sin(lat[i+1]) + sin(lat[i]))] in radians, times
    6371008.8 squared. *)
Theorem area_formula (lats lons : list R) :
  length lats = length lons ->
  (3 <= length lats)%nat ->
  spherical_polygon_area_sq_m lats lons = Ok (Spec.area_sq_meters lats lons).
Proof.
  intros Hlen H3.
  rewrite <- (map_fst_combine lats lons Hlen) at 1.
  rewrite <- (map_snd_combine lats lons Hlen) at 2.
  apply area_of_ring_formula.
  rewrite combine_length_eq by exact Hlen. exact H3.
Qed.

Lemma area_formula_witness :
  spherical_polygon_area_sq_m [0; 0; 1] [0; 1; 0]
  = Ok (Spec.area_sq_meters [0; 0; 1] [0; 1; 0]).
Proof. apply area_formula; simpl; lia. Defined.





(** C4, amended. Over exact real arithmetic, for every ring,
    [spherical_polygon_area_sq_m] on the reversed sequences returns the same value as on the original sequences. *)
Theorem area_reversal (lats lons : list R) :
  length lats = length lons ->
  spherical_polygon_area_sq_m (rev lats) (rev lons)
  = spherical_polygon_area_sq_m lats lons.
Proof.
  intros Hlen. as_ring lats lons Hlen ring.
  rewrite <- !map_rev, !area_of_ring, ring_area_rev. reflexivity.
Qed.

Lemma area_reversal_witness :
  spherical_polygon_area_sq_m (rev [0; 0; 1; 1]) (rev [0; 1; 1; 0])
  = spherical_polygon_area_sq_m [0; 0; 1; 1] [0; 1; 1; 0].
Proof. apply area_reversal. reflexivity. Defined.

(** C5. For every ring whose first point differs from its last point,
    [spherical_polygon_area_sq_m] on the ring with a copy of the first point
    appended returns the same result as on the ring itself. *)
Theorem area_closing (lats lons : list R) (la0 lo0 laN loN : R) :
  length lats = length lons ->
  getitem lats 0 = Ok la0 ->
  getitem lons 0 = Ok lo0 ->
  getitem lats (-1) = Ok laN ->
  getitem lons (-1) = Ok loN ->
  la0 <> laN \/ lo0 <> loN ->
  spherical_polygon_area_sq_m (lats ++ [la0]) (lons ++ [lo0])
  = spherical_polygon_area_sq_m lats lons.
Proof.
  intros Hlen. as_ring lats lons Hlen ring.
  destruct ring as [|p rest].
  - cbn [map]. rewrite getitem_empty. discriminate.
  - cbn [map]. rewrite !getitem_head, !getitem_minus_one.
    change (fst p :: map fst rest) with (map fst (p :: rest)).
    change (snd p :: map snd rest) with (map snd (p :: rest)).
    rewrite !last_map_point.
    intros [= <-] [= <-] [= <-] [= <-] Hopen.
    change [fst p] with (map fst [p]). change [snd p] with (map snd [p]).
    rewrite <- !map_app, !area_of_ring. f_equal.
    apply ring_area_closed. intros E.
    change (fst p <> fst (last (p :: rest) p)
            \/ snd p <> snd (last (p :: rest) p)) in Hopen.
    rewrite <- E in Hopen.
    destruct Hopen as [N | N]; apply N; reflexivity.
Qed.

Lemma area_closing_witness :
  spherical_polygon_area_sq_m ([0; 0; 1] ++ [0]) ([0; 1; 0] ++ [0])
  = spherical_polygon_area_sq_m [0; 0; 1] [0; 1; 0].
Proof.
  apply (area_closing [0; 0; 1] [0; 1; 0] 0 0 1 0); try reflexivity.
  left. lra.
Defined.

(** C6, amended. Over exact real arithmetic, for every longitude sequence
    of length at least 1 whose consecutive values are at most 540 degrees apart, [_unwrap_lons] applied
    to its own output returns that output unchanged. *)
Theorem unwrap_lons_idempotent (lons : list R) :
  (1 <= length lons)%nat ->
  small_jumps lons ->
  exists out : list R,
    _unwrap_lons lons = Ok out /\ _unwrap_lons out = Ok out.
Proof.
  intros Hlen Hs. destruct lons as [|x rest]; [simpl in Hlen; lia|].
  exists (Spec.normalize (x :: rest)).
  split; [apply unwrap_lons_cons|].
  rewrite <- (normalize_idem (x :: rest) Hs) at 2.
  cbn [Spec.normalize]. apply unwrap_lons_cons.
Qed.

Lemma unwrap_lons_idempotent_witness :
  exists out : list R,
    _unwrap_lons [179; -179; -179; 179] = Ok out /\ _unwrap_lons out = Ok out.
Proof.
  apply unwrap_lons_idempotent.
  - simpl. lia.
  - simpl. lra.
Defined.

(** C7. For every non-empty pair of equal-length latitude and longitude
    sequences, [centroid_latlon] returns the pair obtained by converting
    every vertex to unit-sphere Cartesian coordinates, averaging x, y and z
    over all the vertices as given, and converting back with
    latitude = atan2(z, hypot(x, y)) and longitude = atan2(y, x), in
    degrees. *)
Theorem centroid_formula (lats lons : list R) :
  length lats = length lons ->
  (1 <= length lats)%nat ->
  centroid_latlon lats lons = Spec.centroid (combine lats lons).
Proof.
  intros Hlen H1. unfold centroid_latlon, Spec.centroid, Spec.mean.
  destruct lats as [|a lats]; [simpl in H1; lia|].
  rewrite centroid_loop, !length_map, !Rplus_0_l.
  rewrite (combine_length_eq (a :: lats) lons Hlen).
  unfold len. rewrite <- INR_IZR_INZ. reflexivity.
Qed.

Lemma centroid_formula_witness :
  centroid_latlon [1; 1; -1; -1] [1; -1; -1; 1]
  = Spec.centroid (combine [1; 1; -1; -1] [1; -1; -1; 1]).
Proof. apply centroid_formula; simpl; lia. Defined.

(** Over exact real arithmetic, for equal-length latitude and longitude
    sequences, [spherical_polygon_area_sq_m] returns a value, which is
    non-negative, and 0 for a degenerate ring. *)
Theorem area_total_nonneg (lats lons : list R) :
  length lats = length lons ->
  exists a : R,
    spherical_polygon_area_sq_m lats lons = Ok a
    /\ 0 <= a
    /\ (degenerate (combine lats lons) -> a = 0).
Proof.
  intros Hlen. exists (ring_area (combine lats lons)).
  split; [apply area_of_lists, Hlen|].
  split; [apply ring_area_nonneg | apply ring_area_degenerate].
Qed.

Lemma area_total_nonneg_witness :
  exists a : R,
    spherical_polygon_area_sq_m [0; 0; 1; 1] [179; -179; -179; 179] = Ok a
    /\ 0 <= a.
Proof.
  destruct (area_total_nonneg [0; 0; 1; 1] [179; -179; -179; 179])
    as (a & Ha & Hpos & _).
  - reflexivity.
  - exists a. split; assumption.
Defined.

(** C9. For empty input, [centroid_latlon] returns the pair (0, 0). *)
Theorem centroid_empty (lons : list R) : centroid_latlon [] lons = (0, 0).
Proof. reflexivity. Qed.

(** C10. For every non-empty longitude sequence and every index, the output
    of [_unwrap_lons] at that index differs from the input at that index by
    an integer multiple of 360. *)
Theorem unwrap_lons_turns (lons : list R) :
  (1 <= length lons)%nat ->
  exists out : list R,
    _unwrap_lons lons = Ok out
    /\ forall i : nat,
         (i < length lons)%nat ->
         exists k : Z, nth i out 0 - nth i lons 0 = 360 * IZR k.
Proof.
  intros Hlen. destruct lons as [|x rest]; [simpl in Hlen; lia|].
  exists (Spec.normalize (x :: rest)).
  split; [apply unwrap_lons_cons|].
  intros i Hi. apply normalize_turns, Hi.
Qed.

Lemma unwrap_lons_turns_witness :
  exists out : list R,
    _unwrap_lons [179; -179; -179; 179] = Ok out
    /\ exists k : Z, nth 1 out 0 - -179 = 360 * IZR k.
Proof.
  destruct (unwrap_lons_turns [179; -179; -179; 179]) as (out & Hout & Hk).
  - simpl. lia.
  - exists out. split; [exact Hout|].
    apply (Hk 1%nat). simpl. lia.
Defined.

(** ** Further properties of the geometry core *)

(** *** Failure of [_unwrap_lons] and the size of its steps *)

Lemma small_jumps_nth (lons : list R) :
  small_jumps lons ->
  forall i : nat,
    (S i < length lons)%nat -> -540 <= nth (S i) lons 0 - nth i lons 0 <= 540.
Proof.
  induction lons as [|x rest IH]; intros Hs i Hi; [simpl in Hi; lia|].
  destruct rest as [|y rest]; [simpl in Hi; lia|].
  destruct Hs as [Hd Hs]. destruct i as [|i].
  - exact Hd.
  - apply (IH Hs i). simpl in *. lia.
Qed.

(** X7. [_unwrap_lons] raises [IndexError] on the empty list, and on no
    other input. *)
Theorem unwrap_lons_fails_iff (lons : list R) :
  _unwrap_lons lons = IndexError <-> lons = [].
Proof.
  split.
  - destruct lons as [|x rest]; [reflexivity|].
    rewrite unwrap_lons_cons. discriminate.
  - intros ->. apply unwrap_lons_nil.
Qed.

(** X8. When consecutive input longitudes are at most 540 degrees apart (as
    all longitudes within [-180, 180] are), consecutive outputs of
    [_unwrap_lons] are at most 180 degrees apart. *)
Theorem unwrap_lons_steps (lons : list R) :
  (1 <= length lons)%nat ->
  small_jumps lons ->
  exists out : list R,
    _unwrap_lons lons = Ok out
    /\ forall i : nat,
         (S i < length lons)%nat ->
         -180 <= nth (S i) out 0 - nth i out 0 <= 180.
Proof.
  intros Hlen Hs. destruct lons as [|x rest]; [simpl in Hlen; lia|].
  exists (Spec.normalize (x :: rest)).
  split; [apply unwrap_lons_cons|].
  intros i Hi. rewrite (normalize_nth (x :: rest) i Hi).
  pose proof (adjust_range _ (small_jumps_nth _ Hs i Hi)) as Hr. lra.
Qed.

Lemma unwrap_lons_steps_witness :
  exists out : list R,
    _unwrap_lons [179; -179; -179; 179] = Ok out
    /\ -180 <= nth 1 out 0 - nth 0 out 0 <= 180.
Proof.
  destruct (unwrap_lons_steps [179; -179; -179; 179]) as (out & Hout & Hstep).
  - simpl. lia.
  - simpl. lra.
  - exists out. split; [exact Hout|]. apply (Hstep 0%nat). simpl. lia.
Defined.

(** *** When [spherical_polygon_area_sq_m] raises *)









(** *** Invariance of the area *)

(** The sum over the closed ring, whether or not a point was appended. *)
Lemma edge_sum_close (p : point) (rest : list point) :
  edge_sum (Spec.close (p :: rest))
  = edge_sum (p :: rest) + edge (last rest p) p.
Proof.
  unfold Spec.close. rewrite last_cons.
  destruct (point_eq_dec p (last rest p)) as [E | N].
  - rewrite <- E, edge_refl. lra.
  - rewrite (edge_sum_snoc _ _ p) by discriminate.
    rewrite last_cons. reflexivity.
Qed.

Lemma ring_area_rotate (p : point) (rest : list point) :
  ring_area (rest ++ [p]) = ring_area (p :: rest).
Proof.
  unfold ring_area. rewrite length_app. simpl length.
  replace (length rest + 1)%nat with (S (length rest)) by lia.
  destruct (S (length rest) <? 3)%nat; [reflexivity|].
  do 3 f_equal.
  destruct rest as [|r rest]; [reflexivity|].
  change ((r :: rest) ++ [p]) with (r :: (rest ++ [p])).
  rewrite !edge_sum_close, last_last, last_cons.
  change (r :: rest ++ [p]) with ((r :: rest) ++ [p]).
  rewrite (edge_sum_snoc _ _ p) by discriminate.
  rewrite last_cons, edge_sum_cons. lra.
Qed.

(** X9. Starting the ring at its second vertex (the first vertex moved to
    the end) does not change the result of
    [spherical_polygon_area_sq_m]. *)
Theorem area_rotation (la lo : R) (lats lons : list R) :
  length lats = length lons ->
  spherical_polygon_area_sq_m (lats ++ [la]) (lons ++ [lo])
  = spherical_polygon_area_sq_m (la :: lats) (lo :: lons).
Proof.
  intros Hlen. as_ring lats lons Hlen ring.
  change [la] with (map fst [(la, lo)]). change [lo] with (map snd [(la, lo)]).
  rewrite <- !map_app.
  change (la :: map fst ring) with (map fst ((la, lo) :: ring)).
  change (lo :: map snd ring) with (map snd ((la, lo) :: ring)).
  rewrite !area_of_ring, ring_area_rotate. reflexivity.
Qed.

Lemma area_rotation_witness :
  spherical_polygon_area_sq_m ([0; 1; 1] ++ [0]) ([1; 1; 0] ++ [0])
  = spherical_polygon_area_sq_m (0 :: [0; 1; 1]) (0 :: [1; 1; 0]).
Proof. apply area_rotation. reflexivity. Defined.

Lemma edge_shift (c : R) (p q : point) :
  edge (shift_lon c p) (shift_lon c q) = edge p q.
Proof.
  unfold edge, shift_lon. cbn [fst snd].
  replace (snd q + c - (snd p + c)) with (snd q - snd p) by lra. reflexivity.
Qed.

Lemma edge_sum_shift (c : R) (ring : list point) :
  edge_sum (map (shift_lon c) ring) = edge_sum ring.
Proof.
  induction ring as [|p ring IH]; [reflexivity|].
  destruct ring as [|q ring]; [reflexivity|].
  change (map (shift_lon c) (p :: q :: ring))
    with (shift_lon c p :: map (shift_lon c) (q :: ring)) in *.
  change (map (shift_lon c) (q :: ring))
    with (shift_lon c q :: map (shift_lon c) ring) in *.
  rewrite !edge_sum_cons, IH, edge_shift. reflexivity.
Qed.

Lemma shift_lon_inj (c : R) (p q : point) :
  shift_lon c p = shift_lon c q -> p = q.
Proof.
  destruct p as [a b], q as [a' b']. unfold shift_lon. cbn [fst snd].
  intros [= -> H]. f_equal. lra.
Qed.

Lemma close_shift (c : R) (ring : list point) :
  Spec.close (map (shift_lon c) ring) = map (shift_lon c) (Spec.close ring).
Proof.
  destruct ring as [|p rest]; [reflexivity|].
  unfold Spec.close. cbn [map].
  change (shift_lon c p :: map (shift_lon c) rest)
    with (map (shift_lon c) (p :: rest)).
  rewrite last_map_point.
  destruct (point_eq_dec (shift_lon c p) (shift_lon c (last (p :: rest) p)))
    as [E | N], (point_eq_dec p (last (p :: rest) p)) as [E' | N'].
  - reflexivity.
  - exfalso. apply N', (shift_lon_inj c), E.
  - exfalso. apply N. rewrite <- E'. reflexivity.
  - rewrite map_app. reflexivity.
Qed.

Lemma ring_area_shift (c : R) (ring : list point) :
  ring_area (map (shift_lon c) ring) = ring_area ring.
Proof.
  unfold ring_area. rewrite length_map, close_shift, edge_sum_shift.
  reflexivity.
Qed.

(** X10. Adding the same constant to every longitude does not change the
    result of [spherical_polygon_area_sq_m]. *)
Theorem area_longitude_shift (c : R) (lats lons : list R) :
  length lats = length lons ->
  spherical_polygon_area_sq_m lats (map (fun lo => lo + c) lons)
  = spherical_polygon_area_sq_m lats lons.
Proof.
  intros Hlen. as_ring lats lons Hlen ring.
  replace (map fst ring) with (map fst (map (shift_lon c) ring)) at 1
    by (rewrite map_map; reflexivity).
  replace (map (fun lo => lo + c) (map snd ring))
    with (map snd (map (shift_lon c) ring))
    by (rewrite !map_map; reflexivity).
  rewrite !area_of_ring, ring_area_shift. reflexivity.
Qed.

Lemma area_longitude_shift_witness :
  spherical_polygon_area_sq_m [0; 0; 1] (map (fun lo => lo + 180) [0; 1; 0])
  = spherical_polygon_area_sq_m [0; 0; 1] [0; 1; 0].
Proof. apply area_longitude_shift. reflexivity. Defined.

(** *** Rings on a meridian or on the equator *)








(** *** The centroid *)

Lemma combine_fst_snd (ring : list point) :
  combine (map fst ring) (map snd ring) = ring.
Proof.
  induction ring as [|[a b] ring IH]; [reflexivity|].
  cbn [map combine fst snd]. f_equal. exact IH.
Qed.

Lemma centroid_of_ring (ring : list point) :
  centroid_latlon (map fst ring) (map snd ring)
  = match ring with
    | [] => (0, 0)
    | _ :: _ => Spec.centroid ring
    end.
Proof.
  destruct ring as [|p rest]; [reflexivity|].
  transitivity
    (let '(x, y, z) :=
       fold_left centroid_body
         (combine (map fst (p :: rest)) (map snd (p :: rest))) (0, 0, 0) in
     let n := IZR (len (map fst (p :: rest))) in
     (math.degrees (math.atan2 (z / n) (math.hypot (x / n) (y / n))),
      math.degrees (math.atan2 (y / n) (x / n)))); [reflexivity|].
  generalize (p :: rest). intros ring.
  rewrite combine_fst_snd, centroid_loop.
  unfold Spec.centroid, Spec.mean, len.
  rewrite !length_map, !Rplus_0_l, <- INR_IZR_INZ. reflexivity.
Qed.

Lemma Rsum_permutation (l l' : list R) :
  Permutation.Permutation l l' -> Rsum l = Rsum l'.
Proof.
  induction 1; cbn [Rsum fold_right] in *; unfold Rsum in *; lra.
Qed.

Lemma centroid_permutation_ring (ring ring' : list point) :
  Permutation.Permutation ring ring' ->
  Spec.centroid ring = Spec.centroid ring'.
Proof.
  intros Hp. unfold Spec.centroid, Spec.mean. rewrite !length_map.
  rewrite (Permutation.Permutation_length Hp).
  assert (Hc : Permutation.Permutation
                 (map Spec.cartesian ring) (map Spec.cartesian ring'))
    by (apply Permutation.Permutation_map, Hp).
  rewrite (Rsum_permutation _ _
             (Permutation.Permutation_map (fun v => fst (fst v)) Hc)).
  rewrite (Rsum_permutation _ _
             (Permutation.Permutation_map (fun v => snd (fst v)) Hc)).
  rewrite (Rsum_permutation _ _ (Permutation.Permutation_map snd Hc)).
  reflexivity.
Qed.

(** X11. [centroid_latlon] does not depend on the order of the vertices:
    two rings that list the same vertices, each as often, in any order, have
    the same centroid. *)
Theorem centroid_permutation (lats lons lats' lons' : list R) :
  length lats = length lons ->
  length lats' = length lons' ->
  Permutation.Permutation (combine lats lons) (combine lats' lons') ->
  centroid_latlon lats lons = centroid_latlon lats' lons'.
Proof.
  intros Hlen Hlen'. as_ring lats lons Hlen ring.
  as_ring lats' lons' Hlen' ring'. intros Hp.
  rewrite !centroid_of_ring.
  destruct ring as [|p rest], ring' as [|p' rest'].
  - reflexivity.
  - apply Permutation.Permutation_nil in Hp. discriminate.
  - apply Permutation.Permutation_sym, Permutation.Permutation_nil in Hp.
    discriminate.
  - apply centroid_permutation_ring, Hp.
Qed.

Lemma centroid_permutation_witness :
  centroid_latlon [1; 2; 3] [10; 20; 30] = centroid_latlon [3; 1; 2] [30; 10; 20].
Proof.
  apply centroid_permutation; try reflexivity.
  cbn [combine].
  apply Permutation.Permutation_sym.
  apply (Permutation.Permutation_cons_app [(1, 10); (2, 20)] []).
  rewrite app_nil_r. apply Permutation.Permutation_refl.
Defined.

Lemma degrees_bounds (t b : R) :
  - b <= t <= b -> - (b * (180 / PI)) <= math.degrees t <= b * (180 / PI).
Proof.
  intros Ht. unfold math.degrees.
  assert (Hpi : 0 < PI) by apply PI_RGT_0.
  assert (Hk : 0 < 180 / PI) by (apply Rdiv_lt_0_compat; lra).
  split; nra.
Qed.

Lemma atan_sign_nonpos (x : R) : x <= 0 -> atan x <= 0.
Proof.
  intros [Hx | ->]; [|rewrite atan_0; lra].
  rewrite <- atan_0. left. apply atan_increasing, Hx.
Qed.

Lemma atan_sign_pos (x : R) : 0 < x -> 0 < atan x.
Proof. intros Hx. rewrite <- atan_0. apply atan_increasing, Hx. Qed.

(** [math.atan2] returns an angle between -pi and pi. *)
Lemma atan2_bounds (y x : R) : - PI <= math.atan2 y x <= PI.
Proof.
  assert (Hpi : 0 < PI) by apply PI_RGT_0.
  pose proof (atan_bound (y / x)) as Hb.
  unfold math.atan2.
  destruct (Rlt_dec 0 x); [lra|].
  destruct (Rlt_dec x 0) as [Hx |].
  - destruct (Rle_dec 0 y) as [Hy | Hy].
    + assert (atan (y / x) <= 0).
      { apply atan_sign_nonpos. unfold Rdiv.
        assert (/ x < 0) by (apply Rinv_lt_0_compat, Hx). nra. }
      lra.
    + assert (0 < atan (y / x)).
      { apply atan_sign_pos. unfold Rdiv.
        assert (/ x < 0) by (apply Rinv_lt_0_compat, Hx). nra. }
      lra.
  - destruct (Rlt_dec 0 y); [lra|]. destruct (Rlt_dec y 0); lra.
Qed.

(** For a non-negative abscissa the angle is between -pi/2 and pi/2. *)
Lemma atan2_right (y x : R) : 0 <= x -> - (PI / 2) <= math.atan2 y x <= PI / 2.
Proof.
  intros Hx.
  assert (Hpi : 0 < PI) by apply PI_RGT_0.
  pose proof (atan_bound (y / x)) as Hb.
  unfold math.atan2.
  destruct (Rlt_dec 0 x); [lra|].
  destruct (Rlt_dec x 0); [lra|].
  destruct (Rlt_dec 0 y); [lra|]. destruct (Rlt_dec y 0); lra.
Qed.

Lemma hypot_nonneg (x y : R) : 0 <= math.hypot x y.
Proof. unfold math.hypot. apply sqrt_pos. Qed.

(** X12. Over exact real arithmetic, for finite coordinates, the pair that
    [centroid_latlon] returns is a latitude between -90 and 90 and a
    longitude between -180 and 180. *)
Theorem centroid_range (lats lons : list R) :
  -90 <= fst (centroid_latlon lats lons) <= 90
  /\ -180 <= snd (centroid_latlon lats lons) <= 180.
Proof.
  assert (Hpi : 0 < PI) by apply PI_RGT_0.
  assert (H90 : PI / 2 * (180 / PI) = 90) by (field; lra).
  assert (H180 : PI * (180 / PI) = 180) by (field; lra).
  unfold centroid_latlon. destruct lats as [|a lats].
  - cbn [fst snd]. lra.
  - destruct (fold_left centroid_body (combine (a :: lats) lons) (0, 0, 0))
      as [[x y] z].
    cbn [fst snd]. split.
    + pose proof (degrees_bounds _ (PI / 2)
                    (atan2_right (z / IZR (len (a :: lats)))
                       _ (hypot_nonneg (x / IZR (len (a :: lats)))
                                       (y / IZR (len (a :: lats)))))) as H.
      rewrite H90 in H. exact H.
    + pose proof (degrees_bounds _ PI
                    (atan2_bounds (y / IZR (len (a :: lats)))
                                  (x / IZR (len (a :: lats))))) as H.
      rewrite H180 in H. exact H.
Qed.

(** ** The parsing layer *)

Section ParsingFacts.
Variable E : runtime.

(** *** Reading a coordinates text *)

Lemma coords_body_lengths (acc : list R * list R) (p : list N) :
  length (fst acc) = length (snd acc) ->
  length (fst (coords_body E acc p)) = length (snd (coords_body E acc p)).
Proof.
  destruct acc as [lats lons]. unfold coords_body. cbn [fst snd]. intros H.
  destruct (parse_token E p) as [[lat lon] |]; cbn [fst snd]; [|exact H].
  rewrite !length_app, H. reflexivity.
Qed.

Lemma coords_loop_lengths (parts : list (list N)) :
  forall acc : list R * list R,
    length (fst acc) = length (snd acc) ->
    length (fst (fold_left (coords_body E) parts acc))
    = length (snd (fold_left (coords_body E) parts acc)).
Proof.
  induction parts as [|p parts IH]; intros acc H; [exact H|].
  cbn [fold_left]. apply IH, coords_body_lengths, H.
Qed.

(** X1. Whatever the coordinates text and whatever [float] accepts,
    [parse_kml_polygons] reads as many latitudes as longitudes from it: a
    token adds to both lists or to neither. *)
Theorem parse_coordinates_lengths (text : list N) :
  length (fst (parse_coordinates E text))
  = length (snd (parse_coordinates E text)).
Proof. apply coords_loop_lengths. reflexivity. Qed.

Lemma split_without_sep (sep : N) (s : list N) :
  ~ In sep s -> Str.split sep s = [s].
Proof.
  induction s as [|c s IH]; intros Hnot; [reflexivity|].
  cbn [Str.split]. destruct (N.eqb_spec c sep) as [-> | _].
  - exfalso. apply Hnot. left. reflexivity.
  - rewrite IH; [reflexivity|]. intros H. apply Hnot. right. exact H.
Qed.

Lemma split_at_sep (sep : N) (s t : list N) :
  ~ In sep s -> Str.split sep (s ++ sep :: t) = s :: Str.split sep t.
Proof.
  induction s as [|c s IH]; intros Hnot.
  - cbn [app Str.split]. rewrite N.eqb_refl. reflexivity.
  - cbn [app Str.split]. destruct (N.eqb_spec c sep) as [-> | _].
    + exfalso. apply Hnot. left. reflexivity.
    + rewrite IH; [reflexivity|]. intros H. apply Hnot. right. exact H.
Qed.

(** X4. A token [lon,lat,...] is read as the token [lon,lat]: the altitude
    and any further fields are ignored, even when they are not numbers. *)
Theorem parse_token_altitude (lon_str lat_str rest : list N) :
  ~ In Str.comma lon_str ->
  ~ In Str.comma lat_str ->
  parse_token E (lon_str ++ Str.comma :: lat_str ++ Str.comma :: rest)
  = parse_token E (lon_str ++ Str.comma :: lat_str).
Proof.
  intros Hlon Hlat. unfold parse_token.
  rewrite !split_at_sep by assumption.
  rewrite (split_without_sep _ lat_str Hlat).
  destruct (Str.split Str.comma rest); reflexivity.
Qed.

(** A token without a comma is skipped. *)
Lemma parse_token_one_field (p : list N) :
  ~ In Str.comma p -> parse_token E p = None.
Proof.
  intros Hnot. unfold parse_token. rewrite split_without_sep by exact Hnot.
  reflexivity.
Qed.



(** *** The polygons of a document *)

Lemma placemark_body_well_formed (kml_path : list N) (results : list Poly.t)
  (pm : placemark) :
  Forall well_formed results ->
  Forall well_formed (placemark_body E kml_path results pm).
Proof.
  intros Hres. unfold placemark_body.
  destruct (coordinates_text pm) as [text |]; [|exact Hres].
  destruct (Str.truthy text); [|exact Hres].
  pose proof (coords_loop_lengths (coordinate_parts text) ([], []) eq_refl)
    as Hlen.
  fold (parse_coordinates E text) in Hlen.
  destruct (parse_coordinates E text) as [lats lons]. cbn [fst snd] in Hlen.
  destruct (Z.leb_spec 3 (len lats)) as [H3 | _]; [|exact Hres].
  apply Forall_app. split; [exact Hres|].
  constructor; [|constructor].
  split; cbn [Poly.lats Poly.lons]; [unfold len in H3; lia | exact Hlen].
Qed.

Lemma placemarks_loop_well_formed (kml_path : list N) (pms : list placemark) :
  forall results : list Poly.t,
    Forall well_formed results ->
    Forall well_formed (fold_left (placemark_body E kml_path) pms results).
Proof.
  induction pms as [|pm pms IH]; intros results Hres; [exact Hres|].
  cbn [fold_left]. apply IH, placemark_body_well_formed, Hres.
Qed.

Lemma parse_kml_polygons_records (kml_path : list N) :
  Forall well_formed (parse_kml_polygons E kml_path).
Proof.
  unfold parse_kml_polygons. destruct (xml E kml_path) as [pms |].
  - apply (placemarks_loop_well_formed kml_path pms []). constructor.
  - constructor.
Qed.

(** X2. Every record that [parse_kml_polygons] returns has at least three
    vertices and as many latitudes as longitudes. *)
Theorem parse_kml_polygons_well_formed (kml_path : list N) :
  Forall (fun poly =>
            (3 <= length (Poly.lats poly))%nat
            /\ length (Poly.lats poly) = length (Poly.lons poly))
    (parse_kml_polygons E kml_path).
Proof. exact (parse_kml_polygons_records kml_path). Qed.

End ParsingFacts.

(** *** The rows of a folder *)

Section Summary.
Variable E : runtime.







End Summary.

(** *** The parsing layer on examples *)

(** The text ["12,7,0 13,7,0\n13,8 x,1 5"]: three tokens are read, the token
    [x,1] and the token [5] are skipped. *)
Example parse_coordinates_run :
  parse_coordinates Example.rt
    [49; 50; 44; 55; 44; 48; 32; 49; 51; 44; 55; 44; 48; 10;
     49; 51; 44; 56; 32; 120; 44; 49; 32; 53]%N
  = ([7; 7; 8], [12; 13; 13]).
Proof. reflexivity. Qed.

Lemma parse_token_altitude_witness :
  parse_token Example.rt ([49; 50]%N ++ Str.comma :: [55]%N ++ Str.comma :: [48]%N)
  = parse_token Example.rt ([49; 50]%N ++ Str.comma :: [55]%N).
Proof.
  apply parse_token_altitude; simpl; intros H;
    repeat (destruct H as [H | H]; [discriminate|]); exact H.
Defined.


(** *** The centroid of coinciding vertices *)

(** [math.atan2] recovers the angle of a point given in polar form. *)
Lemma atan2_polar (r theta : R) :
  0 < r ->
  - PI < theta <= PI ->
  math.atan2 (r * sin theta) (r * cos theta) = theta.
Proof.
  intros Hr Htheta.
  assert (Hpi : 0 < PI) by apply PI_RGT_0.
  unfold math.atan2.
  destruct (Rtotal_order theta (- (PI / 2))) as [Hlow | [Hlow | Hlow]].
  - (* third quadrant *)
    assert (Hc : cos theta < 0).
    { rewrite <- cos_neg. apply cos_lt_0; lra. }
    assert (Hs : sin theta < 0) by (apply sin_lt_0_var; lra).
    assert (Hc' : 0 < cos (theta + PI)) by (rewrite neg_cos; lra).
    destruct (Rlt_dec 0 (r * cos theta)); [nra|].
    destruct (Rlt_dec (r * cos theta) 0); [|nra].
    destruct (Rle_dec 0 (r * sin theta)); [nra|].
    replace (r * sin theta / (r * cos theta)) with (tan (theta + PI)).
    + rewrite atan_tan by lra. lra.
    + unfold tan. rewrite neg_sin, neg_cos. field. split; lra.
  - (* theta = -pi/2 *)
    assert (Hc : cos theta = 0) by (rewrite Hlow, cos_neg; apply cos_PI2).
    assert (Hs : sin theta = -1) by (rewrite Hlow, sin_neg, sin_PI2; lra).
    rewrite Hc, Hs, Rmult_0_r.
    destruct (Rlt_dec 0 0); [lra|].
    destruct (Rlt_dec 0 (r * -1)); [lra|].
    destruct (Rlt_dec (r * -1) 0); lra.
  - destruct (Rtotal_order theta (PI / 2)) as [Hup | [Hup | Hup]].
    + (* right half plane *)
      assert (Hc : 0 < cos theta) by (apply cos_gt_0; lra).
      destruct (Rlt_dec 0 (r * cos theta)); [|nra].
      replace (r * sin theta / (r * cos theta)) with (tan theta).
      * apply atan_tan. lra.
      * unfold tan. field. split; lra.
    + (* theta = pi/2 *)
      rewrite Hup, cos_PI2, sin_PI2, Rmult_0_r, Rmult_1_r.
      destruct (Rlt_dec 0 0); [lra|].
      destruct (Rlt_dec 0 r); lra.
    + (* second quadrant *)
      assert (Hc : cos theta < 0) by (apply cos_lt_0; lra).
      assert (Hs : 0 <= sin theta) by (apply sin_ge_0; lra).
      destruct (Rlt_dec 0 (r * cos theta)); [nra|].
      destruct (Rlt_dec (r * cos theta) 0); [|nra].
      destruct (Rle_dec 0 (r * sin theta)); [|nra].
      assert (Hsin : sin theta = - sin (theta - PI)).
      { rewrite <- neg_sin. f_equal. lra. }
      assert (Hcos : cos theta = - cos (theta - PI)).
      { rewrite <- neg_cos. f_equal. lra. }
      replace (r * sin theta / (r * cos theta)) with (tan (theta - PI)).
      * rewrite atan_tan by lra. lra.
      * unfold tan. rewrite Hsin, Hcos. field. split; lra.
Qed.

Lemma degrees_radians (t : R) : math.degrees (math.radians t) = t.
Proof.
  unfold math.degrees, math.radians.
  assert (Hpi : 0 < PI) by apply PI_RGT_0. field. lra.
Qed.

Lemma Rsum_repeat (x : R) (n : nat) : Rsum (repeat x n) = INR n * x.
Proof.
  induction n as [|n IH]; [simpl; lra|].
  cbn [repeat Rsum fold_right]. fold (Rsum (repeat x n)).
  rewrite IH, S_INR. lra.
Qed.

Lemma mean_repeat (x : R) (n : nat) : Spec.mean (repeat x (S n)) = x.
Proof.
  unfold Spec.mean. rewrite Rsum_repeat, repeat_length.
  assert (H : 0 < INR (S n)) by (apply lt_0_INR; lia).
  field. lra.
Qed.

(** The centroid of one vertex, off the poles. *)
Lemma centroid_cartesian (lat lon : R) :
  -90 < lat < 90 ->
  -180 < lon <= 180 ->
  let phi := math.radians lat in
  let lam := math.radians lon in
  (math.degrees
     (math.atan2 (math.sin phi)
        (math.hypot (math.cos phi * math.cos lam) (math.cos phi * math.sin lam))),
   math.degrees
     (math.atan2 (math.cos phi * math.sin lam) (math.cos phi * math.cos lam)))
  = (lat, lon).
Proof.
  intros Hlat Hlon phi lam.
  assert (Hpi : 0 < PI) by apply PI_RGT_0.
  assert (Hphi : - (PI / 2) < phi < PI / 2).
  { unfold phi, math.radians. split; nra. }
  assert (Hlam : - PI < lam <= PI).
  { unfold lam, math.radians. split; nra. }
  assert (Hc : 0 < cos phi) by (apply cos_gt_0; lra).
  unfold math.sin, math.cos, math.hypot.
  replace (cos phi * cos lam * (cos phi * cos lam)
           + cos phi * sin lam * (cos phi * sin lam))
    with (cos phi * cos phi).
  2:{ pose proof (sin2_cos2 lam) as H. unfold Rsqr in H.
      replace (cos phi * cos lam * (cos phi * cos lam)
               + cos phi * sin lam * (cos phi * sin lam))
        with (cos phi * cos phi * (sin lam * sin lam + cos lam * cos lam))
        by ring.
      rewrite H. ring. }
  rewrite sqrt_square by lra.
  replace (sin phi) with (1 * sin phi) by ring.
  replace (cos phi) with (1 * cos phi) at 1 by ring.
  rewrite (atan2_polar 1 phi) by lra.
  rewrite (atan2_polar (cos phi) lam) by assumption.
  unfold phi, lam. rewrite !degrees_radians. reflexivity.
Qed.

(** X15. For a latitude strictly between -90 and 90 and a longitude in
    (-180, 180], the centroid of a ring whose vertices all are that one
    point is the point itself. *)
Theorem centroid_of_repeated_point (lat lon : R) (n : nat) :
  -90 < lat < 90 ->
  -180 < lon <= 180 ->
  centroid_latlon (repeat lat (S n)) (repeat lon (S n)) = (lat, lon).
Proof.
  intros Hlat Hlon.
  replace (repeat lat (S n)) with (map fst (repeat (lat, lon) (S n)))
    by apply map_repeat.
  replace (repeat lon (S n)) with (map snd (repeat (lat, lon) (S n)))
    by apply map_repeat.
  rewrite centroid_of_ring. cbn [repeat].
  change ((lat, lon) :: repeat (lat, lon) n) with (repeat (lat, lon) (S n)).
  unfold Spec.centroid. rewrite !map_repeat, !mean_repeat.
  cbn [Spec.cartesian fst snd].
  apply (centroid_cartesian lat lon Hlat Hlon).
Qed.

Lemma centroid_of_repeated_point_witness :
  centroid_latlon (repeat 45 3) (repeat 180 3) = (45, 180).
Proof. apply centroid_of_repeated_point; lra. Defined.

(** *** Line breaks in a coordinates text *)

Lemma lstrip_map (f : N -> N) (s : list N) :
  (forall c, Str.isspace (f c) = Str.isspace c) ->
  Str.lstrip (map f s) = map f (Str.lstrip s).
Proof.
  intros Hf. induction s as [|c s IH]; [reflexivity|].
  cbn [map Str.lstrip]. rewrite Hf.
  destruct (Str.isspace c); [exact IH | reflexivity].
Qed.

Lemma strip_map (f : N -> N) (s : list N) :
  (forall c, Str.isspace (f c) = Str.isspace c) ->
  Str.strip (map f s) = map f (Str.strip s).
Proof.
  intros Hf. unfold Str.strip, Str.rstrip.
  rewrite (lstrip_map f s Hf), <- map_rev, (lstrip_map f _ Hf), map_rev.
  reflexivity.
Qed.

Lemma newline_to_space_isspace (c : N) :
  Str.isspace (if (c =? Str.newline)%N then Str.space else c) = Str.isspace c.
Proof. destruct (N.eqb_spec c Str.newline) as [-> | _]; reflexivity. Qed.

Lemma replace_newline_twice (s : list N) :
  Str.replace Str.newline Str.space (Str.replace Str.newline Str.space s)
  = Str.replace Str.newline Str.space s.
Proof.
  unfold Str.replace. rewrite map_map. apply map_ext. intros c.
  destruct (N.eqb_spec c Str.newline) as [-> | Hc]; [reflexivity|].
  destruct (N.eqb_spec c Str.newline); [contradiction | reflexivity].
Qed.

(** X14. A line break separates tokens exactly as a space does: replacing
    every line break of a coordinates text by a space does not change the
    vertices read from it. *)
Theorem parse_coordinates_newlines (E : runtime) (text : list N) :
  parse_coordinates E (Str.replace Str.newline Str.space text)
  = parse_coordinates E text.
Proof.
  unfold parse_coordinates, coordinate_parts.
  unfold Str.replace at 2.
  rewrite (strip_map _ text newline_to_space_isspace).
  fold (Str.replace Str.newline Str.space (Str.strip text)).
  rewrite replace_newline_twice. reflexivity.
Qed.

(** *** Repeated vertices *)

Lemma edge_sum_repeat (pre : list point) (p : point) (post : list point) :
  edge_sum (pre ++ p :: p :: post) = edge_sum (pre ++ p :: post).
Proof.
  induction pre as [|a pre IH].
  - cbn [app]. rewrite edge_sum_cons, edge_refl. lra.
  - destruct pre as [|b pre].
    + cbn [app] in *. rewrite !edge_sum_cons, edge_refl. lra.
    + cbn [app] in *. rewrite !edge_sum_cons, IH. reflexivity.
Qed.

Lemma last_app_cons {A : Type} (pre : list A) (a : A) (t : list A) (d : A) :
  last (pre ++ a :: t) d = last (a :: t) d.
Proof.
  revert d. induction pre as [|b pre IH]; intros d; [reflexivity|].
  cbn [app]. transitivity (last (pre ++ a :: t) b); [apply last_cons|].
  rewrite IH, !last_cons. reflexivity.
Qed.

Lemma last_repeat (pre : list point) (p : point) (post : list point) (d : point) :
  last (pre ++ p :: p :: post) d = last (pre ++ p :: post) d.
Proof. rewrite !last_app_cons, !last_cons. reflexivity. Qed.

Lemma ring_area_repeat (pre : list point) (p : point) (post : list point) :
  ring_area (pre ++ p :: p :: post) = ring_area (pre ++ p :: post).
Proof.
  destruct (Nat.ltb_spec (length (pre ++ p :: post)) 3) as [Hshort | Hlong].
  - (* at most two distinct points on either side *)
    assert (Hpts : exists A B : point,
              Forall (fun x => x = A \/ x = B) (pre ++ p :: post)
              /\ (p = A \/ p = B)).
    { rewrite length_app in Hshort. cbn [length] in Hshort.
      destruct pre as [|a pre], post as [|c post]; cbn [length app] in *.
      - exists p, p. split; [repeat constructor; left; reflexivity | left; reflexivity].
      - destruct post as [|e post]; [|cbn [length] in Hshort; lia].
        exists p, c. split; [repeat constructor; tauto | left; reflexivity].
      - destruct pre as [|b pre]; [|cbn [length] in Hshort; lia].
        exists a, p. split; [repeat constructor; tauto | right; reflexivity].
      - lia. }
    destruct Hpts as (A & B & Hall & Hp).
    rewrite (ring_area_two_points A B _ Hall).
    apply (ring_area_two_points A B).
    apply Forall_app in Hall. destruct Hall as [Hpre Hpost].
    apply Forall_app. split; [exact Hpre|].
    constructor; [exact Hp | exact Hpost].
  - unfold ring_area.
    destruct (Nat.ltb_spec (length (pre ++ p :: post)) 3); [lia|].
    destruct (Nat.ltb_spec (length (pre ++ p :: p :: post)) 3) as [Hlt | _].
    { rewrite length_app in *. simpl length in *. lia. }
    do 3 f_equal.
    rewrite (close_hd_last (pre ++ p :: p :: post) p)
      by (destruct pre; discriminate).
    rewrite (close_hd_last (pre ++ p :: post) p)
      by (destruct pre; discriminate).
    rewrite last_repeat.
    replace (hd p (pre ++ p :: p :: post)) with (hd p (pre ++ p :: post))
      by (destruct pre; reflexivity).
    destruct (point_eq_dec (hd p (pre ++ p :: post)) (last (pre ++ p :: post) p)).
    + apply edge_sum_repeat.
    + rewrite <- !app_assoc. cbn [app].
      apply (edge_sum_repeat pre p (post ++ [hd p (pre ++ p :: post)])).
Qed.

(** X16. Listing a vertex twice in a row does not change the result of
    [spherical_polygon_area_sq_m]. *)
Theorem area_repeated_vertex (lats1 lons1 : list R) (la lo : R)
  (lats2 lons2 : list R) :
  length lats1 = length lons1 ->
  length lats2 = length lons2 ->
  spherical_polygon_area_sq_m (lats1 ++ la :: la :: lats2)
                              (lons1 ++ lo :: lo :: lons2)
  = spherical_polygon_area_sq_m (lats1 ++ la :: lats2) (lons1 ++ lo :: lons2).
Proof.
  intros H1 H2. as_ring lats1 lons1 H1 ring1. as_ring lats2 lons2 H2 ring2.
  replace (map fst ring1 ++ la :: la :: map fst ring2)
    with (map fst (ring1 ++ (la, lo) :: (la, lo) :: ring2))
    by (rewrite map_app; reflexivity).
  replace (map snd ring1 ++ lo :: lo :: map snd ring2)
    with (map snd (ring1 ++ (la, lo) :: (la, lo) :: ring2))
    by (rewrite map_app; reflexivity).
  replace (map fst ring1 ++ la :: map fst ring2)
    with (map fst (ring1 ++ (la, lo) :: ring2))
    by (rewrite map_app; reflexivity).
  replace (map snd ring1 ++ lo :: map snd ring2)
    with (map snd (ring1 ++ (la, lo) :: ring2))
    by (rewrite map_app; reflexivity).
  rewrite !area_of_ring, ring_area_repeat. reflexivity.
Qed.

Lemma area_repeated_vertex_witness :
  spherical_polygon_area_sq_m ([0] ++ 0 :: 0 :: [1]) ([0] ++ 1 :: 1 :: [0])
  = spherical_polygon_area_sq_m ([0] ++ 0 :: [1]) ([0] ++ 1 :: [0]).
Proof. apply area_repeated_vertex; reflexivity. Defined.

(** ** The functions in binary64 *)

Section Binary64.
Import Floats.
#[local] Set Warnings "-inexact-float".
#[local] Open Scope float_scope.

(** *** Indexing and loops *)









(** *** [_unwrap_lons] in binary64 *)





End Binary64.

(** *** [spherical_polygon_area_sq_m] in binary64 *)

Section Binary64Area.
Import Floats.
#[local] Set Warnings "-inexact-float".
#[local] Open Scope float_scope.

Variable sin_value : float -> float.













End Binary64Area.

(** *** What rounding does to the claims *)

Section Binary64Claims.
Import Floats.
#[local] Set Warnings "-inexact-float".
#[local] Open Scope float_scope.



(** C4, as stated, fails in binary64: the ring (0, 0.1), (0, 0.7), (90, 0.3)
    and its reversal get areas that differ in the last digits. *)
Lemma area_reversal_rounds :
  F64.spherical_polygon_area_sq_m F64.sin_0_90 [0; 0; 90] [0.1; 0.7; 0.3]
  = F64.Return 212527450405.36328
  /\ F64.spherical_polygon_area_sq_m F64.sin_0_90
       (rev [0; 0; 90]) (rev [0.1; 0.7; 0.3])
     = F64.Return 212527450405.36322
  /\ (212527450405.36328 =? 212527450405.36322) = false.
Proof. repeat split; vm_compute; reflexivity. Qed.

(** C6, as stated, fails in binary64, in two ways.  The longitudes 0, 600
    are unwrapped to 0, 240, and 0, 240 to 0, -120: one turn of 360 is not
    enough for a jump of more than 540.  And for -61.4, -53.8, 86.8, which
    need no unwrapping, the rebasing rounds the last output to
    86.79999999999998, and a second pass rounds it again, to
    86.79999999999995. *)
Lemma unwrap_lons_not_idempotent :
  F64._unwrap_lons [0; 600] = F64.Return [0; 240]
  /\ F64._unwrap_lons [0; 240] = F64.Return [0; -120]
  /\ F64._unwrap_lons [-61.4; -53.8; 86.8]
     = F64.Return [-61.4; -53.8; 86.799999999999983]
  /\ F64._unwrap_lons [-61.4; -53.8; 86.799999999999983]
     = F64.Return [-61.4; -53.8; 86.799999999999955]
  /\ (86.799999999999955 =? 86.799999999999983) = false.
Proof. repeat split; vm_compute; reflexivity. Qed.




End Binary64Claims.
